(** * Functional units of the pipelined RV32I simulator

    A shallow embedding of [ScalarProcessor/units/include/Basics.h]: the
    bit-vector helpers ([sub_range], [concat], [SignBit], [SignExt]), the
    program counter, instruction memory, register file, immediate generator,
    ALU, write-enable generator and data memory, followed by the properties
    of these units.

    Conventions of the embedding.
    - A [std::bitset<N>] is the integer it denotes (its [to_ulong] value); the
      width [N] is the template argument and is passed explicitly.
    - [std::string] is [string]; the strings that occur are the binary
      renderings produced by [bitset::to_string].
    - A C++ exception, a failed [assert] and undefined behaviour are all the
      result [None].
    - [std::vector] is a [list], [std::map<uint32_t, _>] is a [gmap Z _]. *)

From Stdlib Require Import ZArith Lia Ascii String.
From stdpp Require Import base option strings list gmap.

Local Open Scope Z_scope.

(** ** Machine integers *)

(** Conversion to [uint32_t] and to [uint8_t]: reduction modulo the width. *)
Definition to_uint32 (v : Z) : Z := v mod 2 ^ 32.
Definition to_uint8 (v : Z) : Z := v mod 2 ^ 8.

(** Arithmetic of [unsigned long] (64 bits on the simulated host). *)
Definition to_uint64 (v : Z) : Z := v mod 2 ^ 64.

(** [static_cast<int32_t>]: the two's-complement reading of the low 32 bits. *)
Definition to_int32 (v : Z) : Z :=
  let u := v mod 2 ^ 32 in
  if u <? 2 ^ 31 then u else u - 2 ^ 32.

(** ** std::bitset *)

Module bitset.

(** A value is well formed for width [N] when it fits in [N] bits. *)
Definition wf (N : nat) (b : Z) : Prop := 0 <= b < 2 ^ Z.of_nat N.

(** [bitset<N>{val}] from an unsigned integer keeps the low [N] bits. *)
Definition of_ull (N : nat) (val : Z) : Z := val mod 2 ^ Z.of_nat N.

Definition to_ulong (b : Z) : Z := b.

(** [b[i]] *)
Definition test (b : Z) (i : nat) : bool := Z.testbit b (Z.of_nat i).

Definition bit_char (x : bool) : ascii := if x then "1"%char else "0"%char.

(** [b.to_string()]: [N] characters, most significant bit first. *)
Fixpoint to_string (N : nat) (b : Z) : string :=
  match N with
  | O => EmptyString
  | S n => String (bit_char (test b n)) (to_string n b)
  end.

Definition char_bit (c : ascii) : option Z :=
  if Ascii.eqb c "0" then Some 0
  else if Ascii.eqb c "1" then Some 1
  else None.

(** Binary value of a string read left to right; [None] on a character
    other than 0 or 1 ([std::invalid_argument]). *)
Fixpoint bin_value (acc : Z) (s : string) : option Z :=
  match s with
  | EmptyString => Some acc
  | String c s' => d ← char_bit c; bin_value (2 * acc + d) s'
  end.

(** [bitset<N>{str}]: every character is checked, the first [N] give the
    value, the last of them being bit 0. *)
Definition of_string (N : nat) (s : string) : option Z :=
  _ ← bin_value 0 s;
  bin_value 0 (substring 0 N s).

(** [b.all()] *)
Definition all (N : nat) (b : Z) : bool := b mod 2 ^ Z.of_nat N =? Z.ones (Z.of_nat N).

(** [b.set()] sets every bit. *)
Definition set (N : nat) (b : Z) : Z := Z.ones (Z.of_nat N).

(** [b << n] and [b >> n] on [bitset<N>]. *)
Definition shl (N : nat) (b n : Z) : Z := Z.shiftl b n mod 2 ^ Z.of_nat N.
Definition shr (N : nat) (b n : Z) : Z := Z.shiftr b n.

End bitset.

(** ** Bit-vector helpers of Basics.h *)

(** [sub_range<L, R, N>(b)]: bits [L] down to [R] of [b].  The
    [static_assert] admits only the instances with [R <= L <= N - 1]. *)
Definition sub_range (L R N : nat) (b : Z) : option Z :=
  bitset.of_string (L - R + 1)
    (substring (N - L - 1) (L - R + 1) (bitset.to_string N b)).

(** [concat<N>(args...)]: each argument is given with its width. *)
Definition concat (N : nat) (args : list (nat * Z)) : option Z :=
  let bit_params := map (λ a, bitset.to_string a.1 a.2) args in
  let bit_representation_ans := fold_left String.append bit_params EmptyString in
  if decide (String.length bit_representation_ans = N)
  then bitset.of_string N bit_representation_ans
  else None.

(** [SignBit<N>(imm)] *)
Definition SignBit (N : nat) (imm : Z) : Z :=
  if bitset.test imm (N - 1) then bitset.of_ull 1 1 else bitset.of_ull 1 0.

(** [SignExt<N>(SE)] *)
Definition SignExt (N : nat) (SE : Z) : Z :=
  let output := 0 in
  if bitset.all 1 SE then bitset.set N output else output.

(** [operator+] on two [bitset<N>]. *)
Definition bitset_add (N : nat) (lhs rhs : Z) : Z :=
  bitset.of_ull N (to_uint64 (bitset.to_ulong lhs + bitset.to_ulong rhs)).

(** ** Fetch units *)

Module PC.

Record t := mk { pc_ : Z }.

(** [PC()] and [explicit PC(uint32_t pc)]. *)
Definition default : t := mk 0.
Definition of_uint32 (pc : Z) : t := mk (to_uint32 pc).

(** [explicit PC(std::bitset<32> pc)] *)
Definition of_bitset (pc : Z) : t := mk (to_uint32 (bitset.to_ulong pc)).

Definition val (p : t) : Z := pc_ p.

Definition realVal (p : t) : Z := to_uint32 (pc_ p * 4).

(** [PC operator+(uint32_t offset)]: the signed offset is divided by 4
    (C++ division truncates towards zero). *)
Definition add (p : t) (offset : Z) : option t :=
  if decide (offset mod 4 = 0)
  then
    let res_pc := to_uint32 (pc_ p + Z.quot (to_int32 offset) 4) in
    Some (of_uint32 res_pc)
  else None.

(** [PC operator+(PC rhs)] *)
Definition add_pc (p rhs : t) : t :=
  let res_pc := to_uint32 (pc_ p + Z.quot (to_int32 (val rhs)) 4) in
  of_uint32 res_pc.

(** [PC &operator+=(uint32_t offset)] *)
Definition add_assign (p : t) (offset : Z) : option t :=
  if decide (offset mod 4 = 0)
  then Some (mk (to_uint32 (pc_ p + Z.quot (to_int32 offset) 4)))
  else None.

(** [PC &operator+=(std::bitset<32> offset)] *)
Definition add_assign_bitset (p : t) (offset : Z) : t :=
  mk (to_uint32 (pc_ p + Z.quot (to_int32 (bitset.to_ulong offset)) 4)).

(** [PC &operator=(uint32_t pc)] *)
Definition assign (p : t) (pc : Z) : option t :=
  if decide (pc mod 4 = 0)
  then Some (mk (to_uint32 pc))
  else None.

End PC.

Module IMEM.

Record t := mk { imem_ : list Z }.

Definition default : t := mk [].

(** [explicit IMEM(uint32_t instr_count)] *)
Definition of_count (instr_count : nat) : t := mk (replicate instr_count 0).

Definition isEndOfIMEM (m : t) (pc : PC.t) : bool :=
  PC.val pc =? Z.of_nat (length (imem_ m)).

Definition pushBackInstr (m : t) (instr : Z) : t := mk (imem_ m ++ [instr]).

(** [imem_[pc.val()] = instr]: unchecked, undefined out of range. *)
Definition AssignInstrByPC (m : t) (pc : PC.t) (instr : Z) : option t :=
  if decide (Z.to_nat (PC.val pc) < length (imem_ m))%nat
  then Some (mk (<[Z.to_nat (PC.val pc) := instr]> (imem_ m)))
  else None.

(** [imem_.at(pc.val())]: [None] when the index is out of range. *)
Definition getInstr (m : t) (pc : PC.t) : option Z :=
  imem_ m !! Z.to_nat (PC.val pc).

Definition getRawImem (m : t) : list Z := imem_ m.

End IMEM.

(** ** Decode units *)

Module RegisterFile.

Record t := mk { regs_ : list Z }.

(** The member initialiser: 32 registers, all zero. *)
Definition default : t := mk (replicate 32 0).

Definition wf (rf : t) : Prop := length (regs_ rf) = 32%nat.

Definition Write (rf : t) (A3 D3 : Z) : option t :=
  let idx := to_uint8 (bitset.to_ulong A3) in
  if decide (idx < 32)
  then Some (mk (<[Z.to_nat idx := D3]> (regs_ rf)))
  else None.

Definition Read (rf : t) (A : Z) : option Z :=
  let idx := to_uint8 (bitset.to_ulong A) in
  if decide (idx < 32)
  then regs_ rf !! Z.to_nat idx
  else None.

End RegisterFile.

(** ** Execute units *)

(** Modelled from the spec: [instruction.h] (class [RISCVInstr]) is not among
    the sources.  Of the decoded instruction the immediate generator uses the
    raw 32-bit word ([getInstr]) and the format tag ([getFormat]), one of
    R, I, S, B, U, J. *)
Module RISCVInstr.

Inductive Format := R | I | S | B | U | J.

Record t := mk { getInstr : Z; getFormat : Format }.

End RISCVInstr.

Module IMM.

Inductive Type_ := Imm_None | Imm_I | Imm_S | Imm_B | Imm_U | Imm_J.

Record t := mk { type_ : Type_; imm_ : Z }.

(** [IMM()] *)
Definition default : t := mk Imm_None 0.

(** [explicit IMM(const RISCVInstr &instr, bool is_jalr = false)] *)
Definition make (instr : RISCVInstr.t) (is_jalr : bool) : option t :=
  let ins_bits := RISCVInstr.getInstr instr in
  match RISCVInstr.getFormat instr with
  | RISCVInstr.R => Some (mk Imm_None 0)
  | RISCVInstr.I =>
      imm ← (if is_jalr then Some (bitset.of_ull 32 4)
             else
               lo ← sub_range 30 20 32 ins_bits;
               concat 32 [(21%nat, SignExt 21 (SignBit 32 ins_bits)); (11%nat, lo)]);
      Some (mk (if is_jalr then Imm_None else Imm_I) imm)
  | RISCVInstr.S =>
      hi ← sub_range 30 25 32 ins_bits;
      lo ← sub_range 11 7 32 ins_bits;
      imm ← concat 32 [(21%nat, SignExt 21 (SignBit 32 ins_bits)); (6%nat, hi); (5%nat, lo)];
      Some (mk Imm_S imm)
  | RISCVInstr.B =>
      b7 ← sub_range 7 7 32 ins_bits;
      hi ← sub_range 30 25 32 ins_bits;
      lo ← sub_range 11 8 32 ins_bits;
      imm ← concat 32 [(20%nat, SignExt 20 (SignBit 32 ins_bits)); (1%nat, b7);
                       (6%nat, hi); (4%nat, lo); (1%nat, bitset.of_ull 1 0)];
      Some (mk Imm_B imm)
  | RISCVInstr.U =>
      up ← sub_range 31 12 32 ins_bits;
      imm ← concat 32 [(20%nat, up); (12%nat, bitset.of_ull 12 0)];
      Some (mk Imm_U imm)
  | RISCVInstr.J =>
      mid ← sub_range 19 12 32 ins_bits;
      b20 ← sub_range 20 20 32 ins_bits;
      lo ← sub_range 30 21 32 ins_bits;
      imm ← concat 32 [(12%nat, SignExt 12 (SignBit 32 ins_bits)); (8%nat, mid);
                       (1%nat, b20); (10%nat, lo); (1%nat, bitset.of_ull 1 0)];
      Some (mk Imm_J imm)
  end.

Definition getImm (i : t) : Z := imm_ i.

End IMM.

Module ALU.

Inductive Op := ADD | SUB | XOR | OR | AND | SLL | SRL | SRA | SLT | SLTU.

(** [ALU::calc].  An [int] or [unsigned long] result becomes a
    [bitset<32>] through [unsigned long long].  Shifting an [int32_t] by
    32 or more positions is undefined: [None]. *)
Definition calc (lhs rhs : Z) (alu_op : Op) : option Z :=
  match alu_op with
  | ADD => Some (bitset.of_ull 32 (to_uint64 (bitset.to_ulong lhs + bitset.to_ulong rhs)))
  | SUB => Some (bitset.of_ull 32 (to_uint64 (bitset.to_ulong lhs - bitset.to_ulong rhs)))
  | XOR => Some (Z.lxor lhs rhs)
  | OR => Some (Z.lor lhs rhs)
  | AND => Some (Z.land lhs rhs)
  | SLL => Some (bitset.shl 32 lhs (bitset.to_ulong rhs))
  | SRL => Some (bitset.shr 32 lhs (bitset.to_ulong rhs))
  | SRA =>
      if decide (bitset.to_ulong rhs < 32)
      then Some (bitset.of_ull 32
                   (to_uint64 (Z.shiftr (to_int32 (bitset.to_ulong lhs)) (bitset.to_ulong rhs))))
      else None
  | SLT =>
      Some (bitset.of_ull 32
              (if to_int32 (bitset.to_ulong lhs) <? to_int32 (bitset.to_ulong rhs) then 1 else 0))
  | SLTU =>
      Some (bitset.of_ull 32 (if bitset.to_ulong lhs <? bitset.to_ulong rhs then 1 else 0))
  end.

End ALU.

Module CMP.

Inductive Op := EQ | NE | LT | GE | LTU | GEU.

Definition calc (lhs rhs : Z) (cmp_op : Op) : bool :=
  match cmp_op with
  | EQ => bool_decide (lhs = rhs)
  | NE => bool_decide (lhs ≠ rhs)
  | LT => to_int32 (bitset.to_ulong lhs) <? to_int32 (bitset.to_ulong rhs)
  | GE => to_int32 (bitset.to_ulong rhs) <=? to_int32 (bitset.to_ulong lhs)
  | LTU => bitset.to_ulong lhs <? bitset.to_ulong rhs
  | GEU => bitset.to_ulong rhs <=? bitset.to_ulong lhs
  end.

End CMP.

Module WE_GEN.

Record t := mk { mem_we_ : bool; wb_we_ : bool; ebreak_ : bool }.

(** [WE_GEN() = default] with the member initialisers. *)
Definition default : t := mk false false false.

(** [explicit WE_GEN(bool mem_we, bool wb_we, bool ebreak, bool v_ex)] *)
Definition make (mem_we wb_we ebreak v_ex : bool) : t :=
  mk (mem_we && v_ex) (wb_we && v_ex) (ebreak && v_ex).

Definition MEM_WE (g : t) : bool := mem_we_ g.
Definition WB_WE (g : t) : bool := wb_we_ g.
Definition EBREAK (g : t) : bool := ebreak_ g.

End WE_GEN.

(** ** Memory units *)

Module DMEM.

Inductive Width := BYTE | BYTE_U | HALF | HALF_U | WORD.

Record t := mk { dmem_ : gmap Z Z }.

(** [DMEM() = default]: the empty map. *)
Definition default : t := mk ∅.

(** [dmem_[idx]] read as a value: [std::map::operator[]] inserts a
    value-initialised (all-zero) word under a key that is absent. *)
Definition index (m : gmap Z Z) (idx : Z) : Z * gmap Z Z :=
  match m !! idx with
  | Some v => (v, m)
  | None => (0, <[idx := 0]> m)
  end.

Definition Store (d : t) (WD A : Z) (w_type : Width) : option t :=
  let idx := to_uint32 (bitset.to_ulong A) in
  match w_type with
  | BYTE | BYTE_U =>
      lo ← sub_range 7 0 32 WD;
      v ← concat 32 [(24%nat, 0); (8%nat, lo)];
      Some (mk (<[idx := v]> (dmem_ d)))
  | HALF | HALF_U =>
      lo ← sub_range 15 0 32 WD;
      v ← concat 32 [(16%nat, 0); (16%nat, lo)];
      Some (mk (<[idx := v]> (dmem_ d)))
  | WORD => Some (mk (<[idx := WD]> (dmem_ d)))
  end.

(** [Load] returns the loaded word together with the memory, whose map may
    have gained an entry. *)
Definition Load (d : t) (A : Z) (w_type : Width) : option (Z * t) :=
  let idx := to_uint32 (bitset.to_ulong A) in
  let '(cell, m) := index (dmem_ d) idx in
  match w_type with
  | BYTE =>
      byte ← sub_range 7 0 32 cell;
      v ← concat 32 [(24%nat, SignExt 24 (SignBit 8 byte)); (8%nat, byte)];
      Some (v, mk m)
  | BYTE_U =>
      byte ← sub_range 7 0 32 cell;
      v ← concat 32 [(24%nat, bitset.of_ull 24 0); (8%nat, byte)];
      Some (v, mk m)
  | HALF =>
      half_word ← sub_range 15 0 32 cell;
      v ← concat 32 [(16%nat, SignExt 16 (SignBit 16 half_word)); (16%nat, half_word)];
      Some (v, mk m)
  | HALF_U =>
      half_word ← sub_range 15 0 32 cell;
      v ← concat 32 [(16%nat, bitset.of_ull 16 0); (16%nat, half_word)];
      Some (v, mk m)
  | WORD => Some (cell, mk m)
  end.

(** A client of the memory issues stores and loads one after the other. *)
Inductive op :=
  | OpStore (WD A : Z) (w_type : Width)
  | OpLoad (A : Z) (w_type : Width).

(** [run d ops] performs [ops] from [d]; it returns the loaded words in
    order and the final memory. *)
Fixpoint run (d : t) (ops : list op) : option (list Z * t) :=
  match ops with
  | [] => Some ([], d)
  | OpStore WD A w :: rest => d' ← Store d WD A w; run d' rest
  | OpLoad A w :: rest =>
      r ← Load d A w;
      r' ← run r.2 rest;
      Some (r.1 :: r'.1, r'.2)
  end.

(** The key a store writes, if the operation is a store. *)
Definition store_target (o : op) : option Z :=
  match o with
  | OpStore _ A _ => Some (to_uint32 (bitset.to_ulong A))
  | OpLoad _ _ => None
  end.

(** What any load finds in the cell at [idx]. *)
Definition peek (d : t) (idx : Z) : Z := from_option id 0 (dmem_ d !! idx).

End DMEM.

(** ** Arithmetic reading of the helpers *)

(** Bits [hi] down to [lo] of [w], as a number. *)
Definition bits (hi lo : nat) (w : Z) : Z :=
  (w / 2 ^ Z.of_nat lo) mod 2 ^ Z.of_nat (hi - lo + 1).

(** The number denoted by fields written side by side, the first one
    most significant; [acc] stands to the left of them. *)
Fixpoint cat_value (acc : Z) (args : list (nat * Z)) : Z :=
  match args with
  | [] => acc
  | a :: rest => cat_value (acc * 2 ^ Z.of_nat a.1 + a.2 mod 2 ^ Z.of_nat a.1) rest
  end.

Definition total_width (args : list (nat * Z)) : nat := sum_list (map fst args).

(** ** The immediates as the instruction-set manual words them *)

(** Sign extension of an [n]-bit field [v] to a 32-bit word: the field is
    read as a two's-complement number, which is then taken modulo 2^32. *)
Definition sign_extend (n : nat) (v : Z) : Z :=
  to_uint32 (if 2 ^ Z.of_nat (n - 1) <=? v then v - 2 ^ Z.of_nat n else v).

(** What a store of width [w] leaves in the cell it writes, and what a
    load of width [w] makes of the cell it reads. *)
Definition stored_cell (w : DMEM.Width) (WD : Z) : Z :=
  match w with
  | DMEM.BYTE | DMEM.BYTE_U => bits 7 0 WD
  | DMEM.HALF | DMEM.HALF_U => bits 15 0 WD
  | DMEM.WORD => WD
  end.

Definition loaded_word (w : DMEM.Width) (cell : Z) : Z :=
  match w with
  | DMEM.BYTE => sign_extend 8 (bits 7 0 cell)
  | DMEM.BYTE_U => bits 7 0 cell
  | DMEM.HALF => sign_extend 16 (bits 15 0 cell)
  | DMEM.HALF_U => bits 15 0 cell
  | DMEM.WORD => cell
  end.

(** Two memories that no sequence of loads can tell apart: every cell
    reads the same in both. *)
Definition same_contents (d1 d2 : DMEM.t) : Prop :=
  ∀ idx, DMEM.peek d1 idx = DMEM.peek d2 idx.

Module ImmSpec.

(** I: bits [31:20]. *)
Definition imm_I (w : Z) : Z := sign_extend 12 (bits 31 20 w).

(** S: {[31:25], [11:7]}. *)
Definition imm_S (w : Z) : Z := sign_extend 12 (bits 31 25 w * 2 ^ 5 + bits 11 7 w).

(** B: {[31], [7], [30:25], [11:8], 0}. *)
Definition imm_B (w : Z) : Z :=
  sign_extend 13 (bits 31 31 w * 2 ^ 12 + bits 7 7 w * 2 ^ 11
           + bits 30 25 w * 2 ^ 5 + bits 11 8 w * 2 ^ 1 + 0).

(** U: {[31:12], 12'b0}. *)
Definition imm_U (w : Z) : Z := bits 31 12 w * 2 ^ 12 + 0.

(** J: {[31], [19:12], [20], [30:21], 0}. *)
Definition imm_J (w : Z) : Z :=
  sign_extend 21 (bits 31 31 w * 2 ^ 20 + bits 19 12 w * 2 ^ 12
           + bits 20 20 w * 2 ^ 11 + bits 30 21 w * 2 ^ 1 + 0).

End ImmSpec.

(** ** Clients of the register file and of the instruction memory *)

(** A run of register writes, each given as (index, value), in order. *)
Fixpoint write_all (rf : RegisterFile.t) (ws : list (Z * Z))
    : option RegisterFile.t :=
  match ws with
  | [] => Some rf
  | a :: rest => rf' ← RegisterFile.Write rf a.1 a.2; write_all rf' rest
  end.

(** The value most recently written to index [A] in [ws], [init] if none. *)
Definition latest_write (A : Z) (ws : list (Z * Z)) (init : Z) : Z :=
  fold_left (λ acc a, if decide (a.1 = A) then a.2 else acc) ws init.

(** The operation stores, if at all, a 32-bit word. *)
Definition stores_word (o : DMEM.op) : Prop :=
  match o with
  | DMEM.OpStore WD _ _ => bitset.wf 32 WD
  | DMEM.OpLoad _ _ => True
  end.

(** Loading a program: the words are pushed one after the other. *)
Definition load_program (m : IMEM.t) (ws : list Z) : IMEM.t :=
  fold_left IMEM.pushBackInstr ws m.

(** * Properties *)

(** ** Strings of binary digits *)

Section BinaryStrings.

Implicit Types (s : string) (b acc : Z) (N : nat).

Lemma append_cons (c : ascii) s1 s2 :
  String c s1 +:+ s2 = String c (s1 +:+ s2).
Proof. reflexivity. Qed.

Lemma append_empty s : EmptyString +:+ s = s.
Proof. reflexivity. Qed.

Lemma append_length s1 s2 :
  String.length (s1 +:+ s2) = (String.length s1 + String.length s2)%nat.
Proof.
  induction s1 as [|c s1 IH]; [done|].
  rewrite append_cons. simpl. by rewrite IH.
Qed.

Lemma append_assoc s1 s2 s3 : (s1 +:+ s2) +:+ s3 = s1 +:+ (s2 +:+ s3).
Proof.
  induction s1 as [|c s1 IH]; [done|].
  by rewrite !append_cons, IH.
Qed.

Lemma append_empty_r s : s +:+ EmptyString = s.
Proof.
  induction s as [|c s IH]; [done|]. by rewrite append_cons, IH.
Qed.

Lemma substring_all s : substring 0 (String.length s) s = s.
Proof. induction s as [|c s IH]; simpl; [done | by rewrite IH]. Qed.

Lemma substring_app_take s1 s2 :
  substring 0 (String.length s1) (s1 +:+ s2) = s1.
Proof.
  induction s1 as [|c s1 IH]; [by destruct s2|].
  rewrite append_cons. simpl. by rewrite IH.
Qed.

Lemma substring_app_skip s1 s2 (m : nat) :
  substring (String.length s1) m (s1 +:+ s2) = substring 0 m s2.
Proof.
  induction s1 as [|c s1 IH]; [done|].
  rewrite append_cons. simpl. apply IH.
Qed.

Lemma bin_value_app s1 s2 acc :
  bitset.bin_value acc (s1 +:+ s2)
  = bitset.bin_value acc s1 ≫= λ a, bitset.bin_value a s2.
Proof.
  revert acc. induction s1 as [|c s1 IH]; intros acc; [done|].
  rewrite append_cons. simpl.
  destruct (bitset.char_bit c) as [d|]; simpl; [apply IH | done].
Qed.

Lemma char_bit_bit_char (x : bool) :
  bitset.char_bit (bitset.bit_char x) = Some (Z.b2z x).
Proof. by destruct x. Qed.

Lemma mod_pow2_succ b (n : nat) :
  b mod 2 ^ Z.of_nat (S n)
  = Z.b2z (Z.testbit b (Z.of_nat n)) * 2 ^ Z.of_nat n + b mod 2 ^ Z.of_nat n.
Proof.
  rewrite Nat2Z.inj_succ, Z.pow_succ_r by lia.
  rewrite (Z.mul_comm 2), Z.rem_mul_r by lia.
  rewrite Z.testbit_spec' by lia. ring.
Qed.

Lemma bin_value_to_string N b acc :
  bitset.bin_value acc (bitset.to_string N b)
  = Some (acc * 2 ^ Z.of_nat N + b mod 2 ^ Z.of_nat N).
Proof.
  revert acc. induction N as [|n IH]; intros acc.
  - simpl. f_equal. rewrite Z.mod_1_r. lia.
  - cbn [bitset.to_string bitset.bin_value]. rewrite char_bit_bit_char. simpl mbind.
    rewrite IH, mod_pow2_succ. unfold bitset.test.
    f_equal. rewrite Nat2Z.inj_succ, Z.pow_succ_r by lia. ring.
Qed.

Lemma to_string_length N b : String.length (bitset.to_string N b) = N.
Proof. induction N as [|n IH]; simpl; [done | by rewrite IH]. Qed.

Lemma to_string_split (n k : nat) b :
  bitset.to_string (n + k) b
  = bitset.to_string n (b / 2 ^ Z.of_nat k) +:+ bitset.to_string k b.
Proof.
  induction n as [|n IH]; [done|].
  cbn [Nat.add bitset.to_string]. rewrite append_cons, IH. unfold bitset.test.
  by rewrite Z.div_pow2_bits, Nat2Z.inj_add by lia.
Qed.

(** The constructor from a string recovers the value of a rendering. *)
Lemma of_string_to_string N b :
  bitset.of_string N (bitset.to_string N b) = Some (b mod 2 ^ Z.of_nat N).
Proof.
  unfold bitset.of_string.
  pose proof (substring_all (bitset.to_string N b)) as Hsub.
  rewrite to_string_length in Hsub. rewrite Hsub.
  by rewrite bin_value_to_string.
Qed.

Lemma sub_range_spec (L R N : nat) b :
  (R ≤ L < N)%nat → sub_range L R N b = Some (bits L R b).
Proof.
  intros HLR. unfold sub_range, bits.
  replace N with ((N - L - 1) + ((L - R + 1) + R))%nat at 2 by lia.
  rewrite (to_string_split (N - L - 1) (L - R + 1 + R)).
  rewrite (to_string_split (L - R + 1) R).
  set (s1 := bitset.to_string (N - L - 1) _).
  replace (N - L - 1)%nat with (String.length s1)
    by (unfold s1; apply to_string_length).
  rewrite substring_app_skip.
  set (s2 := bitset.to_string (L - R + 1) _).
  replace (L - R + 1)%nat with (String.length s2) at 2
    by (unfold s2; apply to_string_length).
  rewrite substring_app_take. unfold s2.
  apply of_string_to_string.
Qed.

Lemma fold_append_length (args : list (nat * Z)) s0 :
  String.length
    (fold_left String.append (map (λ a, bitset.to_string a.1 a.2) args) s0)
  = (String.length s0 + total_width args)%nat.
Proof.
  revert s0. induction args as [|a args IH]; intros s0; simpl.
  - unfold total_width. simpl. lia.
  - rewrite IH, append_length, to_string_length.
    unfold total_width. simpl. lia.
Qed.

Lemma fold_append_value (args : list (nat * Z)) s0 acc :
  bitset.bin_value acc
    (fold_left String.append (map (λ a, bitset.to_string a.1 a.2) args) s0)
  = bitset.bin_value acc s0 ≫= λ v, Some (cat_value v args).
Proof.
  revert s0. induction args as [|a args IH]; intros s0; simpl.
  - by destruct (bitset.bin_value acc s0).
  - rewrite IH, bin_value_app.
    destruct (bitset.bin_value acc s0) as [v|]; simpl; [|done].
    by rewrite bin_value_to_string.
Qed.

(** [concat] succeeds exactly when the widths add up to [N], and then
    denotes the fields written side by side. *)
Lemma concat_spec (N : nat) (args : list (nat * Z)) :
  total_width args = N → concat N args = Some (cat_value 0 args).
Proof.
  intros HN. unfold concat.
  pose proof (fold_append_length args EmptyString) as Hlen. simpl in Hlen.
  rewrite decide_True by congruence.
  unfold bitset.of_string.
  set (s := fold_left _ _ _) in *.
  replace N with (String.length s) by congruence.
  rewrite substring_all. unfold s.
  by rewrite fold_append_value.
Qed.

Lemma concat_width_mismatch (N : nat) (args : list (nat * Z)) :
  total_width args ≠ N → concat N args = None.
Proof.
  intros HN. unfold concat.
  pose proof (fold_append_length args EmptyString) as Hlen. simpl in Hlen.
  rewrite decide_False; [done | congruence].
Qed.

End BinaryStrings.

(** ** Immediate generator *)

(** Evaluate the powers of two with a literal exponent. *)
Ltac eval_pow2 :=
  repeat match goal with
  | |- context [2 ^ Z.of_nat ?n] =>
      let v := eval vm_compute in (2 ^ Z.of_nat n) in
      change (2 ^ Z.of_nat n) with v
  | |- context [Z.of_nat ?n] =>
      let v := eval vm_compute in (Z.of_nat n) in
      progress change (Z.of_nat n) with v
  end.

Lemma SignExt_SignBit (n N : nat) (w : Z) :
  SignExt n (SignBit N w)
  = if Z.testbit w (Z.of_nat (N - 1)) then 2 ^ Z.of_nat n - 1 else 0.
Proof.
  unfold SignExt, SignBit, bitset.test, bitset.all, bitset.set, bitset.of_ull.
  destruct (Z.testbit w (Z.of_nat (N - 1))); simpl; [|done].
  by rewrite Z.ones_equiv, Z.sub_1_r.
Qed.

Lemma testbit_as_bits (w : Z) (i : nat) :
  Z.b2z (Z.testbit w (Z.of_nat i)) = bits i i w.
Proof.
  unfold bits. replace (i - i + 1)%nat with 1%nat by lia.
  by rewrite Z.testbit_spec' by lia.
Qed.

(** Unfold a unit down to arithmetic on the instruction word. *)
Ltac to_arith :=
  cbn [mbind option_bind RISCVInstr.getFormat RISCVInstr.getInstr];
  rewrite ?sub_range_spec by lia;
  cbn [mbind option_bind];
  rewrite ?concat_spec by reflexivity;
  cbn [mbind option_bind cat_value fst snd].

Ltac eval_consts :=
  eval_pow2;
  repeat match goal with
  | |- context [2 ^ Zpos ?p] =>
      let v := eval vm_compute in (2 ^ Zpos p) in
      change (2 ^ Zpos p) with v
  end.

Ltac split_ifs :=
  repeat match goal with
  | |- context [if Z.testbit ?w ?i then _ else _] =>
      destruct (Z.testbit w i); cbn [Z.b2z]
  | |- context [if ?a <=? ?b then _ else _] => destruct (Z.leb_spec a b)
  | |- context [if ?a <? ?b then _ else _] => destruct (Z.ltb_spec a b)
  end.

Ltac bits_arith := split_ifs; intros; Z.div_mod_to_equations; lia.

Ltac imm_arith w :=
  unfold IMM.make; to_arith;
  do 2 f_equal;
  rewrite ?SignExt_SignBit;
  generalize (testbit_as_bits w 31);
  unfold ImmSpec.imm_I, ImmSpec.imm_S, ImmSpec.imm_B, ImmSpec.imm_U,
    ImmSpec.imm_J, sign_extend, to_uint32, bits, bitset.of_ull;
  eval_consts; bits_arith.

Lemma IMM_make_I (w : Z) :
  IMM.make (RISCVInstr.mk w RISCVInstr.I) false
  = Some (IMM.mk IMM.Imm_I (ImmSpec.imm_I w)).
Proof. imm_arith w. Qed.

Lemma IMM_make_S (w : Z) (is_jalr : bool) :
  IMM.make (RISCVInstr.mk w RISCVInstr.S) is_jalr
  = Some (IMM.mk IMM.Imm_S (ImmSpec.imm_S w)).
Proof. imm_arith w. Qed.

Lemma IMM_make_B (w : Z) (is_jalr : bool) :
  IMM.make (RISCVInstr.mk w RISCVInstr.B) is_jalr
  = Some (IMM.mk IMM.Imm_B (ImmSpec.imm_B w)).
Proof. imm_arith w. Qed.

Lemma IMM_make_U (w : Z) (is_jalr : bool) :
  IMM.make (RISCVInstr.mk w RISCVInstr.U) is_jalr
  = Some (IMM.mk IMM.Imm_U (ImmSpec.imm_U w)).
Proof. imm_arith w. Qed.

Lemma IMM_make_J (w : Z) (is_jalr : bool) :
  IMM.make (RISCVInstr.mk w RISCVInstr.J) is_jalr
  = Some (IMM.mk IMM.Imm_J (ImmSpec.imm_J w)).
Proof. imm_arith w. Qed.

(** With [is_jalr] set, an I-format word yields the constant 4 (the link
    offset) instead of its immediate field; an R-format word has none. *)
Lemma IMM_make_jalr (w : Z) :
  IMM.make (RISCVInstr.mk w RISCVInstr.I) true = Some (IMM.mk IMM.Imm_None 4).
Proof. reflexivity. Qed.

Lemma IMM_make_R (w : Z) (is_jalr : bool) :
  IMM.make (RISCVInstr.mk w RISCVInstr.R) is_jalr = Some IMM.default.
Proof. reflexivity. Qed.

(** The immediate always fits in 32 bits. *)
Lemma IMM_getImm_wf (i : RISCVInstr.t) (is_jalr : bool) (r : IMM.t) :
  IMM.make i is_jalr = Some r → bitset.wf 32 (IMM.getImm r).
Proof.
  destruct i as [w []], is_jalr; intros Hr;
    rewrite ?IMM_make_R, ?IMM_make_jalr, ?IMM_make_I, ?IMM_make_S,
      ?IMM_make_B, ?IMM_make_U, ?IMM_make_J in Hr;
    injection Hr as <-; unfold bitset.wf, IMM.getImm, IMM.default, IMM.imm_;
    unfold ImmSpec.imm_I, ImmSpec.imm_S, ImmSpec.imm_B, ImmSpec.imm_U,
      ImmSpec.imm_J, sign_extend, to_uint32, bits;
    eval_consts; bits_arith.
Qed.

(** C5. For every instruction word [w] the immediate generator succeeds and
    returns the bit-exact immediate of the word's format: I is the
    sign-extended field [31:20], S the sign-extended {[31:25],[11:7]}, B the
    sign-extended {[31],[7],[30:25],[11:8],0}, U is {[31:12], 12 zero bits},
    and J the sign-extended {[31],[19:12],[20],[30:21],0}.  The I case is the
    generator's default mode ([is_jalr] false). *)
Theorem IMM_bit_exact (w : Z) (is_jalr : bool) :
  IMM.getImm <$> IMM.make (RISCVInstr.mk w RISCVInstr.I) false
    = Some (ImmSpec.imm_I w)
  ∧ IMM.getImm <$> IMM.make (RISCVInstr.mk w RISCVInstr.S) is_jalr
    = Some (ImmSpec.imm_S w)
  ∧ IMM.getImm <$> IMM.make (RISCVInstr.mk w RISCVInstr.B) is_jalr
    = Some (ImmSpec.imm_B w)
  ∧ IMM.getImm <$> IMM.make (RISCVInstr.mk w RISCVInstr.U) is_jalr
    = Some (ImmSpec.imm_U w)
  ∧ IMM.getImm <$> IMM.make (RISCVInstr.mk w RISCVInstr.J) is_jalr
    = Some (ImmSpec.imm_J w).
Proof.
  rewrite IMM_make_I, IMM_make_S, IMM_make_B, IMM_make_U, IMM_make_J.
  repeat split.
Qed.

(** ADDI x1, x0, -1 and BEQ x1, x2, +8. *)
Example IMM_addi_minus_one :
  IMM.getImm <$> IMM.make (RISCVInstr.mk 0xFFF00093 RISCVInstr.I) false
  = Some 0xFFFFFFFF.
Proof. vm_compute. reflexivity. Qed.

Example IMM_beq_plus_8 :
  IMM.getImm <$> IMM.make (RISCVInstr.mk 0x00208463 RISCVInstr.B) false
  = Some 8.
Proof. vm_compute. reflexivity. Qed.

(** SW x2, -4(x1); LUI x1, 0x12345; JAL x0, -4: the generator and the
    field layouts agree on the expected words. *)
Example IMM_sw_minus_4 :
  IMM.getImm <$> IMM.make (RISCVInstr.mk 0xFE20AE23 RISCVInstr.S) false
  = Some 0xFFFFFFFC
  ∧ ImmSpec.imm_S 0xFE20AE23 = 0xFFFFFFFC.
Proof. vm_compute. split; reflexivity. Qed.

Example IMM_lui :
  IMM.getImm <$> IMM.make (RISCVInstr.mk 0x123450B7 RISCVInstr.U) false
  = Some 0x12345000
  ∧ ImmSpec.imm_U 0x123450B7 = 0x12345000.
Proof. vm_compute. split; reflexivity. Qed.

Example IMM_jal_minus_4 :
  IMM.getImm <$> IMM.make (RISCVInstr.mk 0xFFDFF06F RISCVInstr.J) false
  = Some 0xFFFFFFFC
  ∧ ImmSpec.imm_J 0xFFDFF06F = 0xFFFFFFFC.
Proof. vm_compute. split; reflexivity. Qed.

(** ** Program counter *)

Ltac unfold_ints :=
  unfold to_uint32, to_uint8, to_uint64, to_int32, bitset.of_ull,
    bitset.to_ulong, bitset.wf in *.

Ltac ints_arith :=
  unfold_ints; eval_consts; split_ifs; intros;
  Z.to_euclidean_division_equations; lia.

(** Adding a byte offset that is a multiple of 4 advances the byte address
    by that offset, modulo 2^32. *)
Lemma PC_add_realVal (p : PC.t) (k : Z) :
  k mod 4 = 0 →
  ∃ p', PC.add p k = Some p' ∧ PC.realVal p' = to_uint32 (PC.realVal p + k).
Proof.
  intros Hk. unfold PC.add. rewrite decide_True by done.
  eexists; split; [done|].
  unfold PC.realVal, PC.of_uint32, PC.pc_. destruct p as [pc]. cbn [PC.pc_].
  revert Hk. ints_arith.
Qed.

(** Assignment stores its argument as the word index, so the byte address
    read back is four times the byte address assigned. *)
Lemma PC_assign_realVal (p : PC.t) (a : Z) :
  a mod 4 = 0 →
  PC.realVal <$> PC.assign p a = Some (to_uint32 (4 * a)).
Proof.
  intros Ha. unfold PC.assign. rewrite decide_True by done.
  cbn [fmap option_fmap option_map]. f_equal.
  unfold PC.realVal. cbn [PC.pc_]. ints_arith.
Qed.

(** C4. The assignment [p = 4] of the aligned byte address 4 leaves
    [p.realVal()] at 16, not at 4: [operator=] asserts that its argument is
    a byte address but stores it undivided as the word index. *)
Theorem PC_assign_4_realVal :
  PC.realVal <$> PC.assign PC.default 4 = Some 16
  ∧ PC.realVal <$> PC.assign PC.default 4 ≠ Some 4.
Proof. split; [reflexivity | discriminate]. Qed.

(** Only the byte address 0 survives an assignment unchanged. *)
Lemma PC_assign_realVal_ne (p : PC.t) (a : Z) :
  a mod 4 = 0 → 0 < a < 2 ^ 32 →
  PC.realVal <$> PC.assign p a ≠ Some a.
Proof.
  intros Ha Hr. rewrite PC_assign_realVal by done.
  intros [= Heq]. revert Ha Hr Heq. ints_arith.
Qed.

(** ** Instruction memory *)

(** C3, as stated, fails: in a one-word instruction memory the PC with word
    index 2 lies beyond the last word, yet the end-of-IMEM test is false. *)
Lemma IMEM_past_end_not_detected :
  ¬ (Z.of_nat (length (IMEM.imem_ (IMEM.mk [0x00000013]))) <= PC.val (PC.of_uint32 2)
     → IMEM.isEndOfIMEM (IMEM.mk [0x00000013]) (PC.of_uint32 2) = true).
Proof. intros H. vm_compute in H. discriminate H. congruence. Qed.

(** C3, amended. For an instruction memory of [n] words the end-of-IMEM
    condition is detected exactly when the PC's word index equals [n]; at a
    word index of [n] or more [getInstr] finds no word, and at a word index
    [i] below [n] the condition is not detected and [getInstr] returns the
    word stored at position [i]. *)
Theorem IMEM_end_exactly_at_size (m : IMEM.t) (pc : PC.t) :
  let n := Z.of_nat (length (IMEM.imem_ m)) in
  (IMEM.isEndOfIMEM m pc = true ↔ PC.val pc = n)
  ∧ (n <= PC.val pc → IMEM.getInstr m pc = None)
  ∧ (0 <= PC.val pc < n →
     IMEM.isEndOfIMEM m pc = false
     ∧ IMEM.getInstr m pc
       = Some (nth (Z.to_nat (PC.val pc)) (IMEM.imem_ m) 0)).
Proof.
  intros n. unfold IMEM.isEndOfIMEM, IMEM.getInstr. fold n.
  split; [apply Z.eqb_eq|]. split.
  - intros Hn. apply lookup_ge_None. lia.
  - intros Hn. split; [apply Z.eqb_neq; lia|].
    destruct (lookup_lt_is_Some_2 (IMEM.imem_ m) (Z.to_nat (PC.val pc)))
      as [w Hw]; [lia|].
    rewrite Hw. f_equal. symmetry. by apply nth_lookup_Some.
Qed.

Lemma IMEM_end_exactly_at_size_witness :
  let m := IMEM.mk [0x00000013; 0x00100073] in
  IMEM.isEndOfIMEM m (PC.of_uint32 2) = true
  ∧ IMEM.getInstr m (PC.of_uint32 2) = None
  ∧ IMEM.isEndOfIMEM m (PC.of_uint32 1) = false
  ∧ IMEM.getInstr m (PC.of_uint32 1) = Some 0x00100073.
Proof.
  intros m.
  destruct (IMEM_end_exactly_at_size m (PC.of_uint32 2)) as (Hend & Hnone & _).
  destruct (IMEM_end_exactly_at_size m (PC.of_uint32 1)) as (_ & _ & Hin).
  split; [apply Hend; reflexivity|].
  split; [apply Hnone; vm_compute; discriminate|].
  apply Hin. vm_compute. split; [discriminate | reflexivity].
Defined.

(** ** Register file *)

Lemma RegisterFile_default_wf : RegisterFile.wf RegisterFile.default.
Proof. reflexivity. Qed.

Lemma RegisterFile_Write_wf (rf rf' : RegisterFile.t) (A3 D3 : Z) :
  RegisterFile.wf rf → RegisterFile.Write rf A3 D3 = Some rf' →
  RegisterFile.wf rf'.
Proof.
  unfold RegisterFile.wf, RegisterFile.Write. intros Hwf.
  case_decide; [|done]. intros [= <-]. cbn [RegisterFile.regs_].
  by rewrite length_insert.
Qed.

(** A write to any index [A3 < 32] is read back at that index and leaves
    the other registers alone. *)
Lemma RegisterFile_Write_Read (rf : RegisterFile.t) (A3 D3 : Z) :
  RegisterFile.wf rf → 0 <= A3 < 32 →
  ∃ rf', RegisterFile.Write rf A3 D3 = Some rf'
    ∧ RegisterFile.Read rf' A3 = Some D3
    ∧ ∀ A, 0 <= A < 32 → A ≠ A3 →
        RegisterFile.Read rf' A = RegisterFile.Read rf A.
Proof.
  unfold RegisterFile.wf, RegisterFile.Write, RegisterFile.Read.
  intros Hwf HA3.
  assert (to_uint8 (bitset.to_ulong A3) = A3) as ->
    by (unfold to_uint8, bitset.to_ulong; apply Z.mod_small; lia).
  rewrite decide_True by lia. eexists; split; [done|].
  rewrite decide_True by lia. cbn [RegisterFile.regs_]. split.
  - apply list_lookup_insert_eq. lia.
  - intros A HA Hne.
    assert (to_uint8 (bitset.to_ulong A) = A) as ->
      by (unfold to_uint8, bitset.to_ulong; apply Z.mod_small; lia).
    rewrite !decide_True by lia. apply list_lookup_insert_ne. lia.
Qed.

(** C1, as stated, fails: writing 5 to index 0 of the initial register
    file changes the file, and register 0 then reads 5. *)
Lemma RegisterFile_Write_zero_not_discarded :
  ¬ (RegisterFile.Write RegisterFile.default 0 5 = Some RegisterFile.default
     ∧ (RegisterFile.Write RegisterFile.default 0 5
          ≫= λ rf', RegisterFile.Read rf' 0) = Some 0).
Proof. intros [_ H]. vm_compute in H. discriminate H. Qed.

Example RegisterFile_Write_zero_reads_back :
  RegisterFile.Write RegisterFile.default 0 5 ≠ Some RegisterFile.default
  ∧ (RegisterFile.Write RegisterFile.default 0 5
       ≫= λ rf', RegisterFile.Read rf' 0) = Some 5.
Proof. split; [discriminate | reflexivity]. Qed.

(** C1, amended. For every register file and every value [D], a write with
    destination index 0 stores [D] in register 0 like in any other
    register: register 0 reads [D] afterwards and registers 1 to 31 are
    unchanged.  The initial register file reads 0 at index 0. *)
Theorem RegisterFile_Write_zero_stores (rf : RegisterFile.t) (D : Z) :
  RegisterFile.wf rf →
  RegisterFile.Read RegisterFile.default 0 = Some 0
  ∧ ∃ rf', RegisterFile.Write rf 0 D = Some rf'
      ∧ RegisterFile.wf rf'
      ∧ RegisterFile.Read rf' 0 = Some D
      ∧ ∀ A, 0 < A < 32 → RegisterFile.Read rf' A = RegisterFile.Read rf A.
Proof.
  intros Hwf. split; [reflexivity|].
  destruct (RegisterFile_Write_Read rf 0 D Hwf) as (rf' & HW & HR & Hother);
    [lia|].
  exists rf'. split; [done|]. split; [by eapply RegisterFile_Write_wf|].
  split; [done|]. intros A HA. apply Hother; lia.
Qed.

Lemma RegisterFile_Write_zero_stores_witness :
  RegisterFile.wf RegisterFile.default
  ∧ RegisterFile.Read RegisterFile.default 0 = Some 0
  ∧ ∃ rf', RegisterFile.Write RegisterFile.default 0 5 = Some rf'
      ∧ RegisterFile.wf rf'
      ∧ RegisterFile.Read rf' 0 = Some 5
      ∧ ∀ A, 0 < A < 32 →
          RegisterFile.Read rf' A = RegisterFile.Read RegisterFile.default A.
Proof.
  split; [reflexivity|].
  apply (RegisterFile_Write_zero_stores RegisterFile.default 5). reflexivity.
Defined.

(** ** Write-enable generator *)

(** C6. A write-enable generator built with validity [v_ex = false] drives
    none of its outputs, whatever its three enable inputs: neither the memory
    write enable, nor the register write enable, nor the halt. *)
Theorem WE_GEN_bubble_never_commits (mem_we wb_we ebreak : bool) :
  let g := WE_GEN.make mem_we wb_we ebreak false in
  WE_GEN.MEM_WE g = false ∧ WE_GEN.WB_WE g = false ∧ WE_GEN.EBREAK g = false.
Proof.
  unfold WE_GEN.make, WE_GEN.MEM_WE, WE_GEN.WB_WE, WE_GEN.EBREAK.
  cbn [WE_GEN.mem_we_ WE_GEN.wb_we_ WE_GEN.ebreak_].
  by rewrite !andb_false_r.
Qed.

(** A valid latch passes the enables through unchanged. *)
Lemma WE_GEN_valid_passes (mem_we wb_we ebreak : bool) :
  let g := WE_GEN.make mem_we wb_we ebreak true in
  WE_GEN.MEM_WE g = mem_we ∧ WE_GEN.WB_WE g = wb_we ∧ WE_GEN.EBREAK g = ebreak.
Proof.
  unfold WE_GEN.make, WE_GEN.MEM_WE, WE_GEN.WB_WE, WE_GEN.EBREAK.
  cbn [WE_GEN.mem_we_ WE_GEN.wb_we_ WE_GEN.ebreak_].
  by rewrite !andb_true_r.
Qed.

(** ** ALU *)

Lemma testbit_high_false (v : Z) (k j : Z) :
  0 <= v < 2 ^ k → 0 <= k <= j → Z.testbit v j = false.
Proof.
  intros Hv Hk. rewrite <- (Z.mod_small v (2 ^ k)) by done.
  apply Z.mod_pow2_bits_high. lia.
Qed.

(** Bit [j] of the signed reading of a 32-bit word: the word's own bit below
    position 32, its sign bit from there on. *)
Lemma to_int32_testbit (v j : Z) :
  bitset.wf 32 v → 0 <= j →
  Z.testbit (to_int32 v) j = Z.testbit v (Z.min j 31).
Proof.
  unfold bitset.wf. change (2 ^ Z.of_nat 32) with (2 ^ 32).
  intros Hv Hj. unfold to_int32. rewrite Z.mod_small by done.
  destruct (Z.ltb_spec v (2 ^ 31)) as [Hlt|Hge].
  - destruct (Z.le_gt_cases j 31) as [Hj31|Hj31].
    + by rewrite Z.min_l.
    + rewrite Z.min_r by lia.
      rewrite (testbit_high_false v 31 j), (testbit_high_false v 31 31); lia.
  - destruct (Z.le_gt_cases j 31) as [Hj31|Hj31].
    + rewrite Z.min_l by done.
      rewrite <- (Z.mod_pow2_bits_low (v - 2 ^ 32) 32 j) by lia.
      rewrite <- (Z.mod_pow2_bits_low v 32 j) by lia.
      f_equal. rewrite <- (Z.mod_add v (-1) (2 ^ 32)) by lia.
      by f_equal.
    + rewrite Z.min_r by lia.
      replace (v - 2 ^ 32) with (- (2 ^ 32 - v)) by lia.
      rewrite Z.bits_opp by done.
      rewrite (testbit_high_false (Z.pred (2 ^ 32 - v)) 31 j) by lia.
      symmetry. apply Z.testbit_true; [lia|].
      change (2 ^ 31) with 2147483648 in *. change (2 ^ 32) with 4294967296 in *.
      Z.to_euclidean_division_equations; lia.
Qed.

(** C8. For every 32-bit [lhs] and every shift count [rhs] below 32, the
    ALU's SRA is the arithmetic right shift of [lhs] read as a two's-complement
    number: the result is a 32-bit word, it is the signed value divided by
    [2^rhs] rounding down, and its bit [i] is bit [i + rhs] of [lhs] where
    that exists and the sign bit (bit 31) of [lhs] in the vacated high
    positions. *)
Theorem ALU_calc_SRA_arithmetic (lhs rhs : Z) :
  bitset.wf 32 lhs → 0 <= rhs < 32 →
  ∃ r, ALU.calc lhs rhs ALU.SRA = Some r
    ∧ bitset.wf 32 r
    ∧ r = to_uint32 (to_int32 lhs / 2 ^ rhs)
    ∧ ∀ i, 0 <= i < 32 →
        Z.testbit r i
        = if i + rhs <? 32 then Z.testbit lhs (i + rhs) else Z.testbit lhs 31.
Proof.
  intros Hl Hr. unfold ALU.calc, bitset.to_ulong.
  rewrite decide_True by lia. eexists; split; [done|].
  unfold bitset.of_ull, to_uint64, to_uint32, bitset.wf.
  change (2 ^ Z.of_nat 32) with (2 ^ 32).
  split; [|split].
  - apply Z.mod_pos_bound. lia.
  - rewrite Z.shiftr_div_pow2 by lia.
    set (q := to_int32 lhs / 2 ^ rhs).
    change (2 ^ 64) with (2 ^ 32 * 2 ^ 32).
    rewrite Z.rem_mul_r by lia.
    rewrite Z.mul_comm, Z.mod_add by lia.
    apply Z.mod_mod. lia.
  - intros i Hi.
    rewrite !Z.mod_pow2_bits_low by lia.
    rewrite Z.shiftr_spec by lia.
    rewrite to_int32_testbit by (done || lia).
    destruct (Z.ltb_spec (i + rhs) 32).
    + by rewrite Z.min_l by lia.
    + by rewrite Z.min_r by lia.
Qed.

Lemma ALU_calc_SRA_arithmetic_witness :
  bitset.wf 32 0x80000010 ∧ 0 <= 4 < 32
  ∧ ∃ r, ALU.calc 0x80000010 4 ALU.SRA = Some r
    ∧ bitset.wf 32 r
    ∧ r = to_uint32 (to_int32 0x80000010 / 2 ^ 4)
    ∧ ∀ i, 0 <= i < 32 →
        Z.testbit r i
        = if i + 4 <? 32 then Z.testbit 0x80000010 (i + 4)
          else Z.testbit 0x80000010 31.
Proof.
  split; [unfold bitset.wf; simpl; lia|]. split; [lia|].
  apply (ALU_calc_SRA_arithmetic 0x80000010 4); [unfold bitset.wf; simpl; lia | lia].
Defined.

Example ALU_calc_SRA_negative :
  ALU.calc 0x80000010 4 ALU.SRA = Some 0xF8000001.
Proof. vm_compute. reflexivity. Qed.

Example ALU_calc_SRA_positive :
  ALU.calc 0x7FFFFFFF 4 ALU.SRA = Some 0x07FFFFFF.
Proof. vm_compute. reflexivity. Qed.

(** A shift count of 32 or more has no defined result. *)
Lemma ALU_calc_SRA_undefined (lhs rhs : Z) :
  32 <= rhs → ALU.calc lhs rhs ALU.SRA = None.
Proof.
  intros Hr. unfold ALU.calc, bitset.to_ulong. by rewrite decide_False by lia.
Qed.

(** ** Data memory *)

Section DataMemory.

Implicit Types (d : DMEM.t) (m : gmap Z Z) (A WD idx : Z) (w : DMEM.Width).

Lemma DMEM_Store_spec d WD A w :
  DMEM.Store d WD A w
  = Some (DMEM.mk (<[to_uint32 A := stored_cell w WD]> (DMEM.dmem_ d))).
Proof.
  unfold DMEM.Store, bitset.to_ulong.
  destruct w; to_arith; try done; do 3 f_equal;
    unfold stored_cell, bits; eval_consts; bits_arith.
Qed.

Lemma index_fst m idx : (DMEM.index m idx).1 = DMEM.peek (DMEM.mk m) idx.
Proof.
  unfold DMEM.index, DMEM.peek. cbn [DMEM.dmem_]. by destruct (m !! idx).
Qed.

(** Indexing may insert a zero cell; no cell reads differently for it. *)
Lemma index_snd_peek m idx a :
  DMEM.peek (DMEM.mk (DMEM.index m idx).2) a = DMEM.peek (DMEM.mk m) a.
Proof.
  unfold DMEM.index, DMEM.peek. cbn [DMEM.dmem_].
  destruct (m !! idx) eqn:Hidx; [done|]. cbn [snd].
  destruct (decide (idx = a)) as [->|Hne].
  - by rewrite lookup_insert_eq, Hidx.
  - by rewrite lookup_insert_ne.
Qed.

Lemma DMEM_Load_spec d A w :
  DMEM.Load d A w
  = Some (loaded_word w (DMEM.peek d (to_uint32 A)),
          DMEM.mk (DMEM.index (DMEM.dmem_ d) (to_uint32 A)).2).
Proof.
  unfold DMEM.Load, bitset.to_ulong. destruct d as [m]. cbn [DMEM.dmem_].
  rewrite <- index_fst.
  destruct (DMEM.index m (to_uint32 A)) as [cell m']. cbn [fst snd].
  destruct w; to_arith; try done; do 2 f_equal;
    rewrite ?SignExt_SignBit;
    try generalize (testbit_as_bits (bits 7 0 cell) 7);
    try generalize (testbit_as_bits (bits 15 0 cell) 15);
    unfold loaded_word, sign_extend, to_uint32, bits, bitset.of_ull;
    eval_consts; bits_arith.
Qed.

Lemma peek_Store d d' WD A w idx :
  DMEM.Store d WD A w = Some d' →
  DMEM.peek d' idx
  = if decide (idx = to_uint32 A) then stored_cell w WD else DMEM.peek d idx.
Proof.
  rewrite DMEM_Store_spec. intros [= <-]. unfold DMEM.peek. cbn [DMEM.dmem_].
  case_decide as Hidx.
  - subst idx. by rewrite lookup_insert_eq.
  - by rewrite lookup_insert_ne.
Qed.

Lemma peek_Load d d' A w v idx :
  DMEM.Load d A w = Some (v, d') → DMEM.peek d' idx = DMEM.peek d idx.
Proof.
  rewrite DMEM_Load_spec. intros [= _ <-]. rewrite index_snd_peek.
  by destruct d.
Qed.

Lemma same_contents_refl d : same_contents d d.
Proof. by intros idx. Qed.

Lemma same_contents_Load d1 d2 A w :
  same_contents d1 d2 →
  ∃ v d1' d2', DMEM.Load d1 A w = Some (v, d1')
    ∧ DMEM.Load d2 A w = Some (v, d2')
    ∧ same_contents d1' d2'.
Proof.
  intros Hsame. rewrite !DMEM_Load_spec, (Hsame (to_uint32 A)).
  do 3 eexists. split; [done|]. split; [done|].
  intros idx. rewrite !index_snd_peek.
  destruct d1, d2. apply Hsame.
Qed.

Lemma same_contents_Store d1 d2 WD A w :
  same_contents d1 d2 →
  ∃ d1' d2', DMEM.Store d1 WD A w = Some d1'
    ∧ DMEM.Store d2 WD A w = Some d2'
    ∧ same_contents d1' d2'.
Proof.
  intros Hsame.
  destruct (DMEM.Store d1 WD A w) as [d1'|] eqn:H1;
    [|by rewrite DMEM_Store_spec in H1].
  destruct (DMEM.Store d2 WD A w) as [d2'|] eqn:H2;
    [|by rewrite DMEM_Store_spec in H2].
  exists d1', d2'. split; [done|]. split; [done|].
  intros idx. rewrite (peek_Store _ _ _ _ _ _ H1), (peek_Store _ _ _ _ _ _ H2).
  by rewrite Hsame.
Qed.

(** Memories with the same contents answer every sequence of stores and
    loads alike, and still have the same contents afterwards. *)
Lemma same_contents_run (ops : list DMEM.op) d1 d2 :
  same_contents d1 d2 →
  ∃ vals e1 e2, DMEM.run d1 ops = Some (vals, e1)
    ∧ DMEM.run d2 ops = Some (vals, e2)
    ∧ same_contents e1 e2.
Proof.
  revert d1 d2. induction ops as [|[WD A w|A w] ops IH]; intros d1 d2 Hsame.
  - by exists [], d1, d2.
  - destruct (same_contents_Store d1 d2 WD A w Hsame)
      as (d1' & d2' & H1 & H2 & Hsame').
    destruct (IH d1' d2' Hsame') as (vals & e1 & e2 & Hr1 & Hr2 & He).
    exists vals, e1, e2. cbn [DMEM.run]. rewrite H1, H2. by cbn.
  - destruct (same_contents_Load d1 d2 A w Hsame)
      as (v & d1' & d2' & H1 & H2 & Hsame').
    destruct (IH d1' d2' Hsame') as (vals & e1 & e2 & Hr1 & Hr2 & He).
    exists (v :: vals), e1, e2. cbn [DMEM.run]. rewrite H1, H2. cbn.
    rewrite Hr1, Hr2. by cbn.
Qed.

(** A load of width [w] from a cell holding zero returns zero. *)
Lemma loaded_word_zero w : loaded_word w 0 = 0.
Proof. by destruct w. Qed.

(** Operations that never store to the key [idx] keep a zero cell zero;
    they always run to completion. *)
Lemma run_keeps_zero (ops : list DMEM.op) d idx :
  DMEM.peek d idx = 0 →
  Forall (λ o, DMEM.store_target o ≠ Some idx) ops →
  ∃ vals d', DMEM.run d ops = Some (vals, d') ∧ DMEM.peek d' idx = 0.
Proof.
  revert d. induction ops as [|[WD A w|A w] ops IH]; intros d Hzero Hops.
  - by exists [], d.
  - apply Forall_cons in Hops as [Ho Hops].
    cbn [DMEM.store_target] in Ho. unfold bitset.to_ulong in Ho.
    destruct (DMEM.Store d WD A w) as [d1|] eqn:HS;
      [|by rewrite DMEM_Store_spec in HS].
    destruct (IH d1) as (vals & d' & Hrun & Hz); [|done|].
    + rewrite (peek_Store _ _ _ _ _ _ HS).
      rewrite decide_False; [done | congruence].
    + exists vals, d'. cbn [DMEM.run]. rewrite HS. by cbn.
  - apply Forall_cons in Hops as [_ Hops].
    destruct (DMEM.Load d A w) as [[v d1]|] eqn:HL;
      [|by rewrite DMEM_Load_spec in HL].
    destruct (IH d1) as (vals & d' & Hrun & Hz); [|done|].
    + by rewrite (peek_Load _ _ _ _ _ _ HL).
    + exists (v :: vals), d'. cbn [DMEM.run]. rewrite HL. cbn.
      rewrite Hrun. by cbn.
Qed.

End DataMemory.

(** C2, as stated, fails: after the word 0x12345678 is stored at address 0
    of an empty memory, the unsigned byte load at address 1 returns 0, not
    byte 1 of the word (0x56). *)
Lemma DMEM_word_bytes_not_spread :
  ¬ ((DMEM.Store DMEM.default 0x12345678 0 DMEM.WORD
        ≫= λ d, fst <$> DMEM.Load d (0 + 1) DMEM.BYTE_U)
     = Some (bits 15 8 0x12345678)).
Proof. vm_compute. discriminate. Qed.

(** C2, amended. The data memory keeps one 32-bit cell per address and
    does not spread a word over four byte addresses.  After
    [Store(W, A, WORD)], [Load(A, BYTE_U)] returns byte 0 of [W], the least
    significant one; for [k] in 1..3 the load at [A + k] is unaffected by
    that store: it returns what it returned before, the low byte of the
    separate cell at [A + k]. *)
Theorem DMEM_word_store_byte_loads (d : DMEM.t) (A W k : Z) :
  1 <= k <= 3 →
  ∃ d1, DMEM.Store d W A DMEM.WORD = Some d1
    ∧ fst <$> DMEM.Load d1 A DMEM.BYTE_U = Some (bits 7 0 W)
    ∧ fst <$> DMEM.Load d1 (A + k) DMEM.BYTE_U
      = fst <$> DMEM.Load d (A + k) DMEM.BYTE_U
    ∧ fst <$> DMEM.Load d (A + k) DMEM.BYTE_U
      = Some (bits 7 0 (DMEM.peek d (to_uint32 (A + k)))).
Proof.
  intros Hk.
  destruct (DMEM.Store d W A DMEM.WORD) as [d1|] eqn:HS;
    [|by rewrite DMEM_Store_spec in HS].
  exists d1. split; [done|].
  rewrite !DMEM_Load_spec. cbn [fmap option_fmap option_map fst loaded_word].
  rewrite !(peek_Store _ _ _ _ _ _ HS).
  rewrite decide_True by done.
  rewrite decide_False; [done|].
  revert Hk. ints_arith.
Qed.

Lemma DMEM_word_store_byte_loads_witness :
  1 <= 2 <= 3
  ∧ ∃ d1, DMEM.Store DMEM.default 0x12345678 8 DMEM.WORD = Some d1
    ∧ fst <$> DMEM.Load d1 8 DMEM.BYTE_U = Some (bits 7 0 0x12345678)
    ∧ fst <$> DMEM.Load d1 (8 + 2) DMEM.BYTE_U
      = fst <$> DMEM.Load DMEM.default (8 + 2) DMEM.BYTE_U
    ∧ fst <$> DMEM.Load DMEM.default (8 + 2) DMEM.BYTE_U
      = Some (bits 7 0 (DMEM.peek DMEM.default (to_uint32 (8 + 2)))).
Proof.
  split; [lia|].
  apply (DMEM_word_store_byte_loads DMEM.default 8 0x12345678 2). lia.
Defined.

(** C7. In every memory state reached from the empty memory by stores and
    loads none of which stores to address [A], a load from [A] returns 0 at
    every width, signed or unsigned. *)
Theorem DMEM_uninitialized_load_zero (ops : list DMEM.op) (A : Z) (w : DMEM.Width) :
  Forall (λ o, DMEM.store_target o ≠ Some (to_uint32 A)) ops →
  ∃ vals d d', DMEM.run DMEM.default ops = Some (vals, d)
    ∧ DMEM.Load d A w = Some (0, d').
Proof.
  intros Hops.
  destruct (run_keeps_zero ops DMEM.default (to_uint32 A)) as (vals & d & Hrun & Hz);
    [done | done |].
  exists vals, d. eexists. split; [done|].
  by rewrite DMEM_Load_spec, Hz, loaded_word_zero.
Qed.

Lemma DMEM_uninitialized_load_zero_witness :
  let ops := [DMEM.OpStore 0xFFFFFFFF 4 DMEM.WORD; DMEM.OpLoad 8 DMEM.HALF;
              DMEM.OpStore 0x80 12 DMEM.BYTE] in
  Forall (λ o, DMEM.store_target o ≠ Some (to_uint32 8)) ops
  ∧ ∃ vals d d', DMEM.run DMEM.default ops = Some (vals, d)
      ∧ DMEM.Load d 8 DMEM.BYTE = Some (0, d').
Proof.
  intros ops.
  assert (Forall (λ o, DMEM.store_target o ≠ Some (to_uint32 8)) ops) as Hops
    by (repeat constructor; vm_compute; discriminate).
  split; [exact Hops|].
  exact (DMEM_uninitialized_load_zero ops 8 DMEM.BYTE Hops).
Defined.

(** C9. In every memory state, for every address [A] and word [W], storing
    [W] at [A] at word width and then loading from [A] at word width returns
    exactly [W]. *)
Theorem DMEM_store_load_word (d : DMEM.t) (A W : Z) :
  ∃ d1 d2, DMEM.Store d W A DMEM.WORD = Some d1
    ∧ DMEM.Load d1 A DMEM.WORD = Some (W, d2).
Proof.
  destruct (DMEM.Store d W A DMEM.WORD) as [d1|] eqn:HS;
    [|by rewrite DMEM_Store_spec in HS].
  exists d1. eexists. split; [done|].
  rewrite DMEM_Load_spec. cbn [loaded_word].
  rewrite (peek_Store _ _ _ _ _ _ HS). by rewrite decide_True.
Qed.

(** A load from an absent address does change the underlying map. *)
Example DMEM_Load_inserts_entry :
  DMEM.Load DMEM.default 5 DMEM.WORD = Some (0, DMEM.mk {[5 := 0]})
  ∧ DMEM.mk {[5 := 0]} ≠ DMEM.default.
Proof. split; [vm_compute; reflexivity | discriminate]. Qed.

(** C10. A load is observationally pure.  In every memory state [d], a load
    at any address and width succeeds, and the memory [d'] it leaves behind
    answers every later sequence of stores and loads exactly as [d] would
    have: the same words are loaded, and the two final memories read the
    same in every cell. *)
Theorem DMEM_Load_observationally_pure
    (d : DMEM.t) (A : Z) (w : DMEM.Width) (ops : list DMEM.op) :
  ∃ v d', DMEM.Load d A w = Some (v, d')
    ∧ ∃ vals e e', DMEM.run d ops = Some (vals, e)
        ∧ DMEM.run d' ops = Some (vals, e')
        ∧ same_contents e e'.
Proof.
  destruct (DMEM.Load d A w) as [[v d']|] eqn:HL;
    [|by rewrite DMEM_Load_spec in HL].
  exists v, d'. split; [done|].
  apply same_contents_run. intros idx.
  by rewrite (peek_Load _ _ _ _ _ _ HL).
Qed.

(** * Further properties of the units *)

(** ** Bit-vector helpers *)

Lemma bits_testbit (L R : nat) (b : Z) (i : nat) :
  (R ≤ L)%nat →
  Z.testbit (bits L R b) (Z.of_nat i)
  = if decide (i ≤ L - R)%nat then Z.testbit b (Z.of_nat (R + i)) else false.
Proof.
  intros HLR. unfold bits. case_decide as Hi.
  - rewrite Z.mod_pow2_bits_low by lia.
    rewrite Z.div_pow2_bits by lia. f_equal. lia.
  - apply Z.mod_pow2_bits_high. lia.
Qed.

Lemma bits_wf (L R : nat) (b : Z) : bitset.wf (L - R + 1) (bits L R b).
Proof. unfold bitset.wf, bits. apply Z.mod_pos_bound. lia. Qed.

(** X1. [sub_range<L, R, N>] never throws on a valid range; its result has
    [L - R + 1] bits, and bit [i] of it is bit [R + i] of the argument. *)
Theorem sub_range_bitwise (L R N : nat) (b : Z) :
  (R ≤ L < N)%nat →
  ∃ v, sub_range L R N b = Some v
    ∧ bitset.wf (L - R + 1) v
    ∧ ∀ i : nat,
        bitset.test v i
        = if decide (i ≤ L - R)%nat then bitset.test b (R + i) else false.
Proof.
  intros HLR. exists (bits L R b).
  split; [by apply sub_range_spec|]. split; [apply bits_wf|].
  intros i. unfold bitset.test. apply bits_testbit. lia.
Qed.

Lemma sub_range_bitwise_witness :
  (12 ≤ 19 < 32)%nat
  ∧ ∃ v, sub_range 19 12 32 0x00ABC000 = Some v
    ∧ bitset.wf (19 - 12 + 1) v
    ∧ ∀ i : nat,
        bitset.test v i
        = if decide (i ≤ 19 - 12)%nat then bitset.test 0x00ABC000 (12 + i)
          else false.
Proof.
  split; [lia|]. apply (sub_range_bitwise 19 12 32 0x00ABC000). lia.
Defined.

(** X2. Cutting a word in two at any position with [sub_range] and gluing the
    halves with [concat] gives the word back. *)
Theorem concat_sub_range_roundtrip (N k : nat) (b : Z) :
  (0 < k < N)%nat → bitset.wf N b →
  (hi ← sub_range (N - 1) k N b;
   lo ← sub_range (k - 1) 0 N b;
   concat N [((N - k)%nat, hi); (k, lo)]) = Some b.
Proof.
  intros Hk Hb.
  rewrite !sub_range_spec by lia. cbn [mbind option_bind].
  rewrite concat_spec by (unfold total_width; simpl; lia).
  cbn [cat_value fst snd]. f_equal. unfold bits.
  replace (N - 1 - k + 1)%nat with (N - k)%nat by lia.
  replace (k - 1 - 0 + 1)%nat with k by lia.
  change (Z.of_nat 0) with 0. rewrite Z.pow_0_r, Z.div_1_r.
  rewrite !Z.mod_mod by lia.
  rewrite Z.mul_0_l, Z.add_0_l.
  rewrite <- (Z.mod_small b (2 ^ Z.of_nat N)) at 3 by done.
  replace (Z.of_nat N) with (Z.of_nat k + Z.of_nat (N - k)) by lia.
  rewrite Z.pow_add_r by lia.
  rewrite Z.rem_mul_r by lia. ring.
Qed.

Lemma concat_sub_range_roundtrip_witness :
  (0 < 12 < 32)%nat ∧ bitset.wf 32 0xDEADBEEF
  ∧ (hi ← sub_range (32 - 1) 12 32 0xDEADBEEF;
     lo ← sub_range (12 - 1) 0 32 0xDEADBEEF;
     concat 32 [((32 - 12)%nat, hi); (12%nat, lo)]) = Some 0xDEADBEEF.
Proof.
  assert (bitset.wf 32 0xDEADBEEF) as Hwf by (unfold bitset.wf; simpl; lia).
  split; [lia|]. split; [exact Hwf|].
  apply (concat_sub_range_roundtrip 32 12 0xDEADBEEF); [lia | exact Hwf].
Defined.

Lemma cat_value_bound (args : list (nat * Z)) (acc : Z) (a : nat) :
  0 <= acc < 2 ^ Z.of_nat a →
  0 <= cat_value acc args < 2 ^ Z.of_nat (a + total_width args).
Proof.
  revert acc a. induction args as [|[n v] args IH]; intros acc a Hacc.
  - unfold total_width. simpl. by rewrite Nat.add_0_r.
  - cbn [cat_value fst snd].
    replace (a + total_width ((n, v) :: args))%nat
      with ((a + n) + total_width args)%nat
      by (unfold total_width; simpl; lia).
    apply IH. rewrite Nat2Z.inj_add, Z.pow_add_r by lia.
    pose proof (Z.mod_pos_bound v (2 ^ Z.of_nat n) ltac:(lia)).
    nia.
Qed.

(** X3. [concat<N>] trips its assertion exactly when the widths of the
    arguments do not add up to [N]; otherwise it returns an [N]-bit value. *)
Theorem concat_defined_iff_widths (N : nat) (args : list (nat * Z)) :
  (concat N args = None ↔ total_width args ≠ N)
  ∧ ∀ v, concat N args = Some v → bitset.wf N v.
Proof.
  destruct (decide (total_width args = N)) as [HN|HN].
  - rewrite concat_spec by done. split; [split; [discriminate | done]|].
    intros v [= <-]. unfold bitset.wf. rewrite <- HN.
    apply (cat_value_bound args 0 0). simpl. lia.
  - rewrite concat_width_mismatch by done. split; [done|]. discriminate.
Qed.

(** X4. The sign-extension idiom of the loads and of the immediate generator:
    [SignExt<32 - n>(SignBit(v))] in front of an [n]-bit [v] is the 32-bit
    two's-complement extension of [v]. *)
Theorem concat_SignExt_sign_extends (n : nat) (v : Z) :
  (0 < n < 32)%nat → bitset.wf n v →
  concat 32 [((32 - n)%nat, SignExt (32 - n) (SignBit n v)); (n, v)]
  = Some (sign_extend n v).
Proof.
  intros Hn Hv. unfold bitset.wf in Hv.
  rewrite concat_spec by (unfold total_width; simpl; lia).
  cbn [cat_value fst snd]. f_equal.
  rewrite SignExt_SignBit. unfold sign_extend, to_uint32.
  assert (2 ^ Z.of_nat n = 2 * 2 ^ Z.of_nat (n - 1)) as Hpow.
  { rewrite <- Z.pow_succ_r by lia. f_equal. lia. }
  assert (2 ^ 32 = 2 ^ Z.of_nat (32 - n) * 2 ^ Z.of_nat n) as H32.
  { rewrite <- Z.pow_add_r by lia. f_equal. lia. }
  assert (0 < 2 ^ Z.of_nat (n - 1)) by (apply Z.pow_pos_nonneg; lia).
  assert (0 < 2 ^ Z.of_nat (32 - n)) by (apply Z.pow_pos_nonneg; lia).
  rewrite (Z.mod_small v) by done.
  destruct (Z.testbit v (Z.of_nat (n - 1))) eqn:Hbit.
  - apply Z.testbit_true in Hbit; [|lia].
    assert (2 ^ Z.of_nat (n - 1) <= v) as Hge.
    { destruct (Z.le_gt_cases (2 ^ Z.of_nat (n - 1)) v) as [|Hlt]; [done|].
      rewrite Z.div_small, Z.mod_0_l in Hbit by lia. discriminate. }
    rewrite (proj2 (Z.leb_le _ _) Hge).
    rewrite (Z.mod_small (2 ^ Z.of_nat (32 - n) - 1)) by lia.
    rewrite <- (Z.mod_add (v - 2 ^ Z.of_nat n) 1 (2 ^ 32)) by lia.
    rewrite Z.mod_small; [rewrite H32; ring|].
    rewrite H32. nia.
  - apply Z.testbit_false in Hbit; [|lia].
    assert (v < 2 ^ Z.of_nat (n - 1)) as Hlt.
    { destruct (Z.le_gt_cases (2 ^ Z.of_nat (n - 1)) v) as [Hge|]; [|done].
      replace v with (1 * 2 ^ Z.of_nat (n - 1) + (v - 2 ^ Z.of_nat (n - 1)))
        in Hbit by ring.
      rewrite Z.div_add_l, Z.div_small in Hbit by lia. discriminate. }
    rewrite (proj2 (Z.leb_gt _ _) Hlt).
    rewrite Z.mod_0_l by lia. rewrite Z.mod_small; [ring|].
    rewrite H32. nia.
Qed.

Lemma concat_SignExt_sign_extends_witness :
  (0 < 8 < 32)%nat ∧ bitset.wf 8 0x80
  ∧ concat 32 [((32 - 8)%nat, SignExt (32 - 8) (SignBit 8 0x80)); (8%nat, 0x80)]
    = Some (sign_extend 8 0x80).
Proof.
  assert (bitset.wf 8 0x80) as Hwf by (unfold bitset.wf; simpl; lia).
  split; [lia|]. split; [exact Hwf|].
  apply (concat_SignExt_sign_extends 8 0x80); [lia | exact Hwf].
Defined.

(** X5. [operator+] on [bitset<N>], [N <= 64]: addition modulo [2^N], so it is
    commutative and associative and has 0 as unit on [N]-bit values. *)
Theorem bitset_add_modular (N : nat) (a b c : Z) :
  (N ≤ 64)%nat →
  bitset_add N a b = (a + b) mod 2 ^ Z.of_nat N
  ∧ bitset.wf N (bitset_add N a b)
  ∧ bitset_add N a b = bitset_add N b a
  ∧ bitset_add N (bitset_add N a b) c = bitset_add N a (bitset_add N b c)
  ∧ (bitset.wf N a → bitset_add N a 0 = a).
Proof.
  intros HN.
  assert (∀ x y, bitset_add N x y = (x + y) mod 2 ^ Z.of_nat N) as Hadd.
  { intros x y. unfold bitset_add, bitset.of_ull, to_uint64, bitset.to_ulong.
    replace 64 with (Z.of_nat (64 - N) + Z.of_nat N) by lia.
    rewrite Z.pow_add_r by lia.
    rewrite Z.mul_comm, Z.rem_mul_r by lia.
    rewrite Z.mul_comm, Z.mod_add by lia. apply Z.mod_mod. lia. }
  rewrite !Hadd. split; [done|].
  split; [unfold bitset.wf; apply Z.mod_pos_bound; lia|].
  split; [by rewrite Z.add_comm|].
  split.
  - rewrite Zplus_mod_idemp_l, Zplus_mod_idemp_r. f_equal. ring.
  - intros Ha. rewrite Z.add_0_r. by apply Z.mod_small.
Qed.

Lemma bitset_add_modular_witness :
  (32 ≤ 64)%nat
  ∧ bitset_add 32 0xFFFFFFFF 2 = (0xFFFFFFFF + 2) mod 2 ^ Z.of_nat 32
  ∧ bitset.wf 32 (bitset_add 32 0xFFFFFFFF 2)
  ∧ bitset_add 32 0xFFFFFFFF 2 = bitset_add 32 2 0xFFFFFFFF
  ∧ bitset_add 32 (bitset_add 32 0xFFFFFFFF 2) 7
    = bitset_add 32 0xFFFFFFFF (bitset_add 32 2 7)
  ∧ (bitset.wf 32 0xFFFFFFFF → bitset_add 32 0xFFFFFFFF 0 = 0xFFFFFFFF).
Proof.
  split; [lia|]. apply (bitset_add_modular 32 0xFFFFFFFF 2 7). lia.
Defined.

(** ** Program counter: offsets *)

Lemma PC_eq (p q : PC.t) : PC.pc_ p = PC.pc_ q → p = q.
Proof. destruct p, q. cbn. by intros ->. Qed.

(** X6. A byte offset is read as a signed number: adding the 32-bit encoding of
    [s], a multiple of 4 in the signed range, moves the word index by [s / 4]
    and the byte address by [s], backwards when [s] is negative. *)
Theorem PC_add_signed_offset (p : PC.t) (s : Z) :
  s mod 4 = 0 → - 2 ^ 31 <= s < 2 ^ 31 →
  ∃ p', PC.add p (to_uint32 s) = Some p'
    ∧ PC.val p' = to_uint32 (PC.val p + s / 4)
    ∧ PC.realVal p' = to_uint32 (PC.realVal p + s).
Proof.
  intros Hs Hr. unfold PC.add.
  rewrite decide_True by (revert Hs; ints_arith).
  eexists; split; [done|].
  unfold PC.realVal, PC.val, PC.of_uint32. destruct p as [pc]. cbn [PC.pc_].
  revert Hs Hr. split; ints_arith.
Qed.

Lemma PC_add_signed_offset_witness :
  (-8) mod 4 = 0 ∧ - 2 ^ 31 <= -8 < 2 ^ 31
  ∧ ∃ p', PC.add (PC.of_uint32 5) (to_uint32 (-8)) = Some p'
    ∧ PC.val p' = to_uint32 (PC.val (PC.of_uint32 5) + (-8) / 4)
    ∧ PC.realVal p' = to_uint32 (PC.realVal (PC.of_uint32 5) + (-8)).
Proof.
  split; [reflexivity|]. split; [lia|].
  apply (PC_add_signed_offset (PC.of_uint32 5) (-8)); [reflexivity | lia].
Defined.

(** X7. The three ways of adding an offset agree on offsets that are multiples
    of 4; on any other offset [operator+] and [operator+=] on [uint32_t]
    trip their assertion. *)
Theorem PC_add_forms_agree (p : PC.t) (k : Z) :
  (k mod 4 = 0 →
     PC.add p k = Some (PC.add_assign_bitset p k)
     ∧ PC.add_assign p k = Some (PC.add_assign_bitset p k))
  ∧ (k mod 4 ≠ 0 → PC.add p k = None ∧ PC.add_assign p k = None).
Proof.
  unfold PC.add, PC.add_assign, PC.add_assign_bitset, PC.of_uint32,
    bitset.to_ulong.
  split; intros Hk.
  - rewrite !decide_True by done. split; [|done].
    f_equal. apply PC_eq. cbn [PC.pc_]. unfold to_uint32.
    apply Z.mod_mod. lia.
  - by rewrite !decide_False by done.
Qed.

(** X8. [operator+=] on a bitset has no assertion and rounds the signed offset
    towards zero: an offset of fewer than 4 bytes either way leaves the PC
    where it is. *)
Theorem PC_add_assign_bitset_truncates (p : PC.t) (s : Z) :
  bitset.wf 32 (PC.pc_ p) → -4 < s < 4 →
  PC.add_assign_bitset p (to_uint32 s) = p.
Proof.
  intros Hp Hs. apply PC_eq.
  unfold PC.add_assign_bitset. destruct p as [pc]. cbn [PC.pc_] in *.
  revert Hp Hs. ints_arith.
Qed.

Lemma PC_add_assign_bitset_truncates_witness :
  bitset.wf 32 (PC.pc_ (PC.of_uint32 7)) ∧ -4 < -3 < 4
  ∧ PC.add_assign_bitset (PC.of_uint32 7) (to_uint32 (-3)) = PC.of_uint32 7.
Proof.
  assert (bitset.wf 32 (PC.pc_ (PC.of_uint32 7))) as Hwf
    by (unfold bitset.wf; vm_compute; split; [discriminate | reflexivity]).
  split; [exact Hwf|]. split; [lia|].
  apply (PC_add_assign_bitset_truncates (PC.of_uint32 7) (-3)); [exact Hwf | lia].
Defined.

(** X9. [operator+(PC rhs)] uses the word index of [rhs] as if it were a byte
    offset: it is [operator+(uint32_t)] applied to [rhs.val()], and the
    byte address advances by [rhs.val()], not by [rhs.realVal()]. *)
Theorem PC_add_pc_as_byte_offset (p rhs : PC.t) :
  PC.val rhs mod 4 = 0 →
  PC.add p (PC.val rhs) = Some (PC.add_pc p rhs)
  ∧ PC.realVal (PC.add_pc p rhs) = to_uint32 (PC.realVal p + PC.val rhs).
Proof.
  intros Hk. unfold PC.add, PC.add_pc. rewrite decide_True by done.
  split; [done|].
  unfold PC.realVal, PC.val, PC.of_uint32 in *.
  destruct p as [pc], rhs as [k]. cbn [PC.pc_] in *.
  revert Hk. ints_arith.
Qed.

Lemma PC_add_pc_as_byte_offset_witness :
  PC.val (PC.of_uint32 8) mod 4 = 0
  ∧ PC.add (PC.of_uint32 3) (PC.val (PC.of_uint32 8))
    = Some (PC.add_pc (PC.of_uint32 3) (PC.of_uint32 8))
  ∧ PC.realVal (PC.add_pc (PC.of_uint32 3) (PC.of_uint32 8))
    = to_uint32 (PC.realVal (PC.of_uint32 3) + PC.val (PC.of_uint32 8)).
Proof.
  split; [reflexivity|].
  apply (PC_add_pc_as_byte_offset (PC.of_uint32 3) (PC.of_uint32 8)).
  reflexivity.
Defined.

(** X10. Adding an offset and then its negation restores the PC, for every
    aligned offset except [2^31], whose negation is itself. *)
Theorem PC_add_then_negated_offset (p : PC.t) (k : Z) :
  bitset.wf 32 (PC.pc_ p) → bitset.wf 32 k → k mod 4 = 0 → k ≠ 2 ^ 31 →
  (PC.add p k ≫= λ p', PC.add p' (to_uint32 (- k))) = Some p.
Proof.
  intros Hp Hk H4 Hne. unfold PC.add.
  rewrite decide_True by done. cbn [mbind option_bind].
  rewrite decide_True by (revert H4; ints_arith).
  f_equal. apply PC_eq. unfold PC.of_uint32.
  destruct p as [pc]. cbn [PC.pc_] in *.
  revert Hp Hk H4 Hne. ints_arith.
Qed.

Lemma PC_add_then_negated_offset_witness :
  bitset.wf 32 (PC.pc_ (PC.of_uint32 3)) ∧ bitset.wf 32 12 ∧ 12 mod 4 = 0
  ∧ 12 ≠ 2 ^ 31
  ∧ (PC.add (PC.of_uint32 3) 12 ≫= λ p', PC.add p' (to_uint32 (- 12)))
    = Some (PC.of_uint32 3).
Proof.
  assert (bitset.wf 32 (PC.pc_ (PC.of_uint32 3))) as Hp
    by (unfold bitset.wf; vm_compute; split; [discriminate | reflexivity]).
  assert (bitset.wf 32 12) as Hk by (unfold bitset.wf; simpl; lia).
  assert (12 ≠ 2 ^ 31) as Hne by (simpl; lia).
  split; [exact Hp|]. split; [exact Hk|]. split; [reflexivity|].
  split; [exact Hne|].
  apply (PC_add_then_negated_offset (PC.of_uint32 3) 12);
    [exact Hp | exact Hk | reflexivity | exact Hne].
Defined.

(** The exception: after [+ 2^31] and [+ (- 2^31 mod 2^32)] the word index
    has moved by [2^30]. *)
Example PC_add_half_range_twice :
  (PC.add PC.default (2 ^ 31) ≫= λ p', PC.add p' (to_uint32 (- 2 ^ 31)))
  = Some (PC.of_uint32 (2 ^ 32 - 2 ^ 30)).
Proof. vm_compute. reflexivity. Qed.

(** ** Instruction memory: building and patching *)

(** X11. Pushing a word appends it at the position that was the end: the PC
    that was at end-of-IMEM now fetches the new word and is no longer at
    the end, and every word already present is fetched as before. *)
Theorem IMEM_pushBackInstr_extends (m : IMEM.t) (instr : Z) (pc : PC.t) :
  PC.val pc = Z.of_nat (length (IMEM.imem_ m)) →
  let m' := IMEM.pushBackInstr m instr in
  IMEM.isEndOfIMEM m pc = true
  ∧ IMEM.getInstr m pc = None
  ∧ IMEM.isEndOfIMEM m' pc = false
  ∧ IMEM.getInstr m' pc = Some instr
  ∧ ∀ pc', 0 <= PC.val pc' < PC.val pc →
      IMEM.getInstr m' pc' = IMEM.getInstr m pc'.
Proof.
  intros Hpc m'.
  unfold m', IMEM.isEndOfIMEM, IMEM.getInstr, IMEM.pushBackInstr.
  cbn [IMEM.imem_]. rewrite Hpc, Nat2Z.id, length_app. cbn [length].
  split; [apply Z.eqb_refl|].
  split; [by apply lookup_ge_None|].
  split; [apply Z.eqb_neq; lia|].
  split.
  - rewrite lookup_app_r by done. by rewrite Nat.sub_diag.
  - intros pc' Hpc'. apply lookup_app_l. lia.
Qed.

Lemma IMEM_pushBackInstr_extends_witness :
  PC.val (PC.of_uint32 1) = Z.of_nat (length (IMEM.imem_ (IMEM.mk [0x00000013])))
  ∧ let m' := IMEM.pushBackInstr (IMEM.mk [0x00000013]) 0x00100073 in
    IMEM.isEndOfIMEM (IMEM.mk [0x00000013]) (PC.of_uint32 1) = true
    ∧ IMEM.getInstr (IMEM.mk [0x00000013]) (PC.of_uint32 1) = None
    ∧ IMEM.isEndOfIMEM m' (PC.of_uint32 1) = false
    ∧ IMEM.getInstr m' (PC.of_uint32 1) = Some 0x00100073
    ∧ ∀ pc', 0 <= PC.val pc' < PC.val (PC.of_uint32 1) →
        IMEM.getInstr m' pc' = IMEM.getInstr (IMEM.mk [0x00000013]) pc'.
Proof.
  split; [reflexivity|].
  apply (IMEM_pushBackInstr_extends (IMEM.mk [0x00000013]) 0x00100073
           (PC.of_uint32 1)).
  reflexivity.
Defined.

Lemma load_program_raw (ws : list Z) (m : IMEM.t) :
  IMEM.getRawImem (load_program m ws) = IMEM.getRawImem m ++ ws.
Proof.
  revert m. induction ws as [|w ws IH]; intros m; cbn [load_program fold_left].
  - by rewrite app_nil_r.
  - fold (load_program (IMEM.pushBackInstr m w) ws). rewrite IH.
    unfold IMEM.getRawImem, IMEM.pushBackInstr. cbn [IMEM.imem_].
    by rewrite <- app_assoc.
Qed.

(** X12. A program pushed word by word into an empty instruction memory is held
    in program order: the word with index [i] is fetched at word-PC [i],
    and the end-of-IMEM condition holds exactly at the program's length. *)
Theorem IMEM_load_program_fetch (ws : list Z) (pc : PC.t) :
  0 <= PC.val pc →
  let m := load_program IMEM.default ws in
  IMEM.getRawImem m = ws
  ∧ IMEM.getInstr m pc = ws !! Z.to_nat (PC.val pc)
  ∧ (IMEM.isEndOfIMEM m pc = true ↔ PC.val pc = Z.of_nat (length ws)).
Proof.
  intros Hpc m.
  assert (IMEM.imem_ m = ws) as Hraw by apply (load_program_raw ws IMEM.default).
  unfold IMEM.getRawImem, IMEM.getInstr, IMEM.isEndOfIMEM. rewrite Hraw.
  split; [done|]. split; [done|]. apply Z.eqb_eq.
Qed.

Lemma IMEM_load_program_fetch_witness :
  0 <= PC.val (PC.of_uint32 1)
  ∧ let m := load_program IMEM.default [0x00500093; 0x00700113; 0x00100073] in
    IMEM.getRawImem m = [0x00500093; 0x00700113; 0x00100073]
    ∧ IMEM.getInstr m (PC.of_uint32 1)
      = [0x00500093; 0x00700113; 0x00100073] !! Z.to_nat (PC.val (PC.of_uint32 1))
    ∧ (IMEM.isEndOfIMEM m (PC.of_uint32 1) = true
       ↔ PC.val (PC.of_uint32 1)
         = Z.of_nat (length [0x00500093; 0x00700113; 0x00100073])).
Proof.
  assert (0 <= PC.val (PC.of_uint32 1)) as Hpc by (vm_compute; discriminate).
  split; [exact Hpc|].
  exact (IMEM_load_program_fetch [0x00500093; 0x00700113; 0x00100073]
           (PC.of_uint32 1) Hpc).
Defined.

(** X13. Patching a word in range: the patched word is fetched at that PC,
    every other word and the size of the memory are unchanged. *)
Theorem IMEM_AssignInstrByPC_patches (m : IMEM.t) (pc : PC.t) (instr : Z) :
  0 <= PC.val pc < Z.of_nat (length (IMEM.imem_ m)) →
  ∃ m', IMEM.AssignInstrByPC m pc instr = Some m'
    ∧ IMEM.getInstr m' pc = Some instr
    ∧ length (IMEM.imem_ m') = length (IMEM.imem_ m)
    ∧ ∀ pc', 0 <= PC.val pc' → PC.val pc' ≠ PC.val pc →
        IMEM.getInstr m' pc' = IMEM.getInstr m pc'.
Proof.
  intros Hpc. unfold IMEM.AssignInstrByPC, IMEM.getInstr.
  rewrite decide_True by lia. eexists; split; [done|]. cbn [IMEM.imem_].
  split; [apply list_lookup_insert_eq; lia|].
  split; [apply length_insert|].
  intros pc' Hpc' Hne. apply list_lookup_insert_ne. lia.
Qed.

Lemma IMEM_AssignInstrByPC_patches_witness :
  let m := IMEM.mk [0x00000013; 0x00100073] in
  0 <= PC.val (PC.of_uint32 1) < Z.of_nat (length (IMEM.imem_ m))
  ∧ ∃ m', IMEM.AssignInstrByPC m (PC.of_uint32 1) 0x00500093 = Some m'
    ∧ IMEM.getInstr m' (PC.of_uint32 1) = Some 0x00500093
    ∧ length (IMEM.imem_ m') = length (IMEM.imem_ m)
    ∧ ∀ pc', 0 <= PC.val pc' → PC.val pc' ≠ PC.val (PC.of_uint32 1) →
        IMEM.getInstr m' pc' = IMEM.getInstr m pc'.
Proof.
  intros m.
  assert (0 <= PC.val (PC.of_uint32 1) < Z.of_nat (length (IMEM.imem_ m)))
    as Hpc by (vm_compute; split; [discriminate | reflexivity]).
  split; [exact Hpc|].
  exact (IMEM_AssignInstrByPC_patches m (PC.of_uint32 1) 0x00500093 Hpc).
Defined.

(** ** Register file: sequences of writes *)

Lemma RegisterFile_Read_lookup (rf : RegisterFile.t) (A : Z) :
  0 <= A < 32 →
  RegisterFile.Read rf A = RegisterFile.regs_ rf !! Z.to_nat A.
Proof.
  intros HA. unfold RegisterFile.Read, to_uint8, bitset.to_ulong.
  rewrite Z.mod_small by lia. by rewrite decide_True by lia.
Qed.

Lemma RegisterFile_Write_insert (rf : RegisterFile.t) (A3 D3 : Z) :
  0 <= A3 < 32 →
  RegisterFile.Write rf A3 D3
  = Some (RegisterFile.mk (<[Z.to_nat A3 := D3]> (RegisterFile.regs_ rf))).
Proof.
  intros HA. unfold RegisterFile.Write, to_uint8, bitset.to_ulong.
  rewrite Z.mod_small by lia. by rewrite decide_True by lia.
Qed.

Lemma write_all_latest (ws : list (Z * Z)) (rf : RegisterFile.t) :
  RegisterFile.wf rf →
  Forall (λ a, 0 <= a.1 < 32) ws →
  ∃ rf', write_all rf ws = Some rf'
    ∧ RegisterFile.wf rf'
    ∧ ∀ A v, 0 <= A < 32 → RegisterFile.Read rf A = Some v →
        RegisterFile.Read rf' A = Some (latest_write A ws v).
Proof.
  revert rf. induction ws as [|[a d] ws IH]; intros rf Hwf Hws.
  - exists rf. by repeat split.
  - apply Forall_cons in Hws as [Ha Hws]. cbn [fst] in Ha.
    cbn [write_all fst snd]. rewrite RegisterFile_Write_insert by done.
    cbn [mbind option_bind].
    set (rf1 := RegisterFile.mk _).
    assert (RegisterFile.wf rf1) as Hwf1
      by (unfold RegisterFile.wf, rf1; cbn [RegisterFile.regs_];
          by rewrite length_insert).
    destruct (IH rf1 Hwf1 Hws) as (rf' & Hrun & Hwf' & Hread).
    exists rf'. split; [done|]. split; [done|].
    intros A v HA Hv. unfold latest_write. cbn [fold_left fst snd].
    apply Hread; [done|].
    rewrite RegisterFile_Read_lookup in * by done.
    unfold rf1. cbn [RegisterFile.regs_].
    case_decide as Heq.
    + subst a. apply list_lookup_insert_eq. unfold RegisterFile.wf in Hwf. lia.
    + rewrite list_lookup_insert_ne by lia. done.
Qed.

(** X14. Starting from the initial register file, any run of writes to 5-bit
    indices succeeds, and each register then reads the value most recently
    written to it, or 0 if it was never written. *)
Theorem RegisterFile_reads_latest_write (ws : list (Z * Z)) (A : Z) :
  Forall (λ a, 0 <= a.1 < 32) ws → 0 <= A < 32 →
  ∃ rf, write_all RegisterFile.default ws = Some rf
    ∧ RegisterFile.wf rf
    ∧ RegisterFile.Read rf A = Some (latest_write A ws 0).
Proof.
  intros Hws HA.
  destruct (write_all_latest ws RegisterFile.default RegisterFile_default_wf Hws)
    as (rf & Hrun & Hwf & Hread).
  exists rf. split; [done|]. split; [done|].
  apply Hread; [done|].
  rewrite RegisterFile_Read_lookup by done.
  unfold RegisterFile.default. cbn [RegisterFile.regs_].
  apply lookup_replicate_2. lia.
Qed.

Lemma RegisterFile_reads_latest_write_witness :
  let ws := [(1, 5); (2, 7); (1, 12)] in
  Forall (λ a, 0 <= a.1 < 32) ws ∧ 0 <= 1 < 32
  ∧ ∃ rf, write_all RegisterFile.default ws = Some rf
    ∧ RegisterFile.wf rf
    ∧ RegisterFile.Read rf 1 = Some (latest_write 1 ws 0).
Proof.
  intros ws.
  assert (Forall (λ a : Z * Z, 0 <= a.1 < 32) ws) as Hws
    by (repeat constructor; cbn; lia).
  split; [exact Hws|]. split; [lia|].
  apply (RegisterFile_reads_latest_write ws 1); [exact Hws | lia].
Defined.

(** X15. Writes to different registers commute, and of two writes to the same
    register only the second one counts. *)
Theorem RegisterFile_Write_order (rf : RegisterFile.t) (A B D E : Z) :
  0 <= A < 32 → 0 <= B < 32 →
  (A ≠ B →
     (RegisterFile.Write rf A D ≫= λ r, RegisterFile.Write r B E)
     = (RegisterFile.Write rf B E ≫= λ r, RegisterFile.Write r A D))
  ∧ (RegisterFile.Write rf A D ≫= λ r, RegisterFile.Write r A E)
    = RegisterFile.Write rf A E.
Proof.
  intros HA HB. rewrite !RegisterFile_Write_insert by done.
  cbn [mbind option_bind]. rewrite !RegisterFile_Write_insert by done.
  cbn [RegisterFile.regs_]. split.
  - intros Hne. do 2 f_equal. apply list_insert_insert_ne. lia.
  - do 2 f_equal. apply list_insert_insert_eq.
Qed.

Lemma RegisterFile_Write_order_witness :
  0 <= 3 < 32 ∧ 0 <= 4 < 32
  ∧ (3 ≠ 4 →
       (RegisterFile.Write RegisterFile.default 3 10
          ≫= λ r, RegisterFile.Write r 4 20)
       = (RegisterFile.Write RegisterFile.default 4 20
            ≫= λ r, RegisterFile.Write r 3 10))
  ∧ (RegisterFile.Write RegisterFile.default 3 10
       ≫= λ r, RegisterFile.Write r 3 20)
    = RegisterFile.Write RegisterFile.default 3 20.
Proof.
  split; [lia|]. split; [lia|].
  apply (RegisterFile_Write_order RegisterFile.default 3 4 10 20); lia.
Defined.

(** ** Immediate generator: totality, alignment and range *)

Ltac imm_cases w :=
  rewrite ?IMM_make_R, ?IMM_make_jalr, ?IMM_make_I, ?IMM_make_S,
    ?IMM_make_B, ?IMM_make_U, ?IMM_make_J;
  cbn [fmap option_fmap option_map IMM.getImm IMM.imm_ IMM.default];
  unfold ImmSpec.imm_I, ImmSpec.imm_S, ImmSpec.imm_B, ImmSpec.imm_U,
    ImmSpec.imm_J, sign_extend, to_uint32, to_int32, bits.

(** X16. The immediate generator never throws and never trips the width
    assertion of [concat], whatever the word, the format and the JALR flag;
    its immediate always fits in 32 bits. *)
Theorem IMM_make_total (instr : RISCVInstr.t) (is_jalr : bool) :
  ∃ r, IMM.make instr is_jalr = Some r ∧ bitset.wf 32 (IMM.getImm r).
Proof.
  assert (is_Some (IMM.make instr is_jalr)) as [r Hr].
  { destruct instr as [w []], is_jalr;
      rewrite ?IMM_make_R, ?IMM_make_jalr, ?IMM_make_I, ?IMM_make_S,
        ?IMM_make_B, ?IMM_make_U, ?IMM_make_J; done. }
  exists r. split; [done|]. by eapply IMM_getImm_wf.
Qed.

(** X17. Branch and jump immediates are even (bit 0 is zero) and an upper
    immediate has its low 12 bits zero. *)
Theorem IMM_low_bits_zero (w : Z) (is_jalr : bool) :
  (λ r, IMM.getImm r mod 2) <$> IMM.make (RISCVInstr.mk w RISCVInstr.B) is_jalr
    = Some 0
  ∧ (λ r, IMM.getImm r mod 2) <$> IMM.make (RISCVInstr.mk w RISCVInstr.J) is_jalr
    = Some 0
  ∧ (λ r, IMM.getImm r mod 2 ^ 12)
      <$> IMM.make (RISCVInstr.mk w RISCVInstr.U) is_jalr
    = Some 0.
Proof.
  imm_cases w. repeat split; f_equal; eval_consts; bits_arith.
Qed.

(** X18. Read as signed numbers, I and S immediates lie in the 12-bit range,
    B immediates in the 13-bit range and J immediates in the 21-bit
    range. *)
Theorem IMM_signed_range (w : Z) (is_jalr : bool) :
  ∃ i s b j,
    (λ r, to_int32 (IMM.getImm r))
      <$> IMM.make (RISCVInstr.mk w RISCVInstr.I) false = Some i
    ∧ (λ r, to_int32 (IMM.getImm r))
        <$> IMM.make (RISCVInstr.mk w RISCVInstr.S) is_jalr = Some s
    ∧ (λ r, to_int32 (IMM.getImm r))
        <$> IMM.make (RISCVInstr.mk w RISCVInstr.B) is_jalr = Some b
    ∧ (λ r, to_int32 (IMM.getImm r))
        <$> IMM.make (RISCVInstr.mk w RISCVInstr.J) is_jalr = Some j
    ∧ - 2 ^ 11 <= i < 2 ^ 11 ∧ - 2 ^ 11 <= s < 2 ^ 11
    ∧ - 2 ^ 12 <= b < 2 ^ 12 ∧ - 2 ^ 20 <= j < 2 ^ 20.
Proof.
  rewrite IMM_make_I, IMM_make_S, IMM_make_B, IMM_make_J.
  cbn [fmap option_fmap option_map IMM.getImm IMM.imm_].
  do 4 eexists. do 4 (split; [reflexivity|]).
  unfold ImmSpec.imm_I, ImmSpec.imm_S, ImmSpec.imm_B, ImmSpec.imm_J,
    sign_extend, to_uint32, to_int32, bits.
  eval_consts. repeat split; bits_arith.
Qed.

(** ** ALU and comparator *)

Lemma wf32_bounds (v : Z) : bitset.wf 32 v ↔ 0 <= v < 2 ^ 32.
Proof. unfold bitset.wf. by change (2 ^ Z.of_nat 32) with (2 ^ 32). Qed.

(** A non-negative number whose bits from 32 up are clear fits in 32 bits. *)
Lemma wf32_of_bits (v : Z) :
  0 <= v → (∀ i, 32 <= i → Z.testbit v i = false) → bitset.wf 32 v.
Proof.
  intros Hv Hhigh. apply wf32_bounds.
  replace v with (v mod 2 ^ 32); [apply Z.mod_pos_bound; lia|].
  apply Z.bits_inj'. intros i Hi.
  destruct (Z.lt_ge_cases i 32).
  - by rewrite Z.mod_pow2_bits_low.
  - rewrite Z.mod_pow2_bits_high by lia. symmetry. by apply Hhigh.
Qed.

Lemma wf32_high_bits (v i : Z) : bitset.wf 32 v → 32 <= i → Z.testbit v i = false.
Proof.
  intros Hv Hi. apply (proj1 (wf32_bounds _)) in Hv. apply (testbit_high_false v 32 i); lia.
Qed.

(** X19. Whenever the ALU returns a result for 32-bit operands, the result is a
    32-bit word. *)
Theorem ALU_calc_result_wf (lhs rhs v : Z) (alu_op : ALU.Op) :
  bitset.wf 32 lhs → bitset.wf 32 rhs →
  ALU.calc lhs rhs alu_op = Some v → bitset.wf 32 v.
Proof.
  intros Hl Hr. pose proof (proj1 (wf32_bounds _) Hl) as Hl'.
  pose proof (proj1 (wf32_bounds _) Hr) as Hr'.
  unfold ALU.calc, bitset.to_ulong.
  destruct alu_op; try case_decide; intros Hv; try discriminate Hv;
    injection Hv as <-;
    try (apply wf32_bounds; unfold bitset.of_ull, bitset.shl;
         change (2 ^ Z.of_nat 32) with (2 ^ 32); apply Z.mod_pos_bound; lia).
  - apply wf32_of_bits; [apply Z.lxor_nonneg; split; lia|].
    intros i Hi. by rewrite Z.lxor_spec, !wf32_high_bits.
  - apply wf32_of_bits; [apply Z.lor_nonneg; lia|].
    intros i Hi. by rewrite Z.lor_spec, !wf32_high_bits.
  - apply wf32_of_bits; [apply Z.land_nonneg; lia|].
    intros i Hi. by rewrite Z.land_spec, !wf32_high_bits.
  - apply wf32_of_bits; [apply Z.shiftr_nonneg; lia|].
    intros i Hi. unfold bitset.shr. rewrite Z.shiftr_spec by lia.
    apply wf32_high_bits; [done | lia].
Qed.

Lemma ALU_calc_result_wf_witness :
  bitset.wf 32 0xF0F0F0F0 ∧ bitset.wf 32 0x0FF00FF0
  ∧ ALU.calc 0xF0F0F0F0 0x0FF00FF0 ALU.XOR = Some 0xFF00FF00
  ∧ bitset.wf 32 0xFF00FF00.
Proof.
  assert (bitset.wf 32 0xF0F0F0F0) as Hl by (unfold bitset.wf; simpl; lia).
  assert (bitset.wf 32 0x0FF00FF0) as Hr by (unfold bitset.wf; simpl; lia).
  assert (ALU.calc 0xF0F0F0F0 0x0FF00FF0 ALU.XOR = Some 0xFF00FF00) as Hc
    by reflexivity.
  split; [exact Hl|]. split; [exact Hr|]. split; [exact Hc|].
  exact (ALU_calc_result_wf 0xF0F0F0F0 0x0FF00FF0 0xFF00FF00 ALU.XOR Hl Hr Hc).
Defined.

(** X20. ADD and SUB wrap around modulo 2^32 and undo each other. *)
Theorem ALU_calc_ADD_SUB_inverse (lhs rhs : Z) :
  bitset.wf 32 lhs →
  ALU.calc lhs rhs ALU.ADD = Some ((lhs + rhs) mod 2 ^ 32)
  ∧ ALU.calc lhs rhs ALU.SUB = Some ((lhs - rhs) mod 2 ^ 32)
  ∧ (ALU.calc lhs rhs ALU.ADD ≫= λ s, ALU.calc s rhs ALU.SUB) = Some lhs
  ∧ (ALU.calc lhs rhs ALU.SUB ≫= λ s, ALU.calc s rhs ALU.ADD) = Some lhs.
Proof.
  intros Hl. apply (proj1 (wf32_bounds _)) in Hl.
  unfold ALU.calc. cbn [mbind option_bind].
  repeat split; f_equal; revert Hl; ints_arith.
Qed.

Lemma ALU_calc_ADD_SUB_inverse_witness :
  bitset.wf 32 0xFFFFFFFF
  ∧ ALU.calc 0xFFFFFFFF 2 ALU.ADD = Some ((0xFFFFFFFF + 2) mod 2 ^ 32)
  ∧ ALU.calc 0xFFFFFFFF 2 ALU.SUB = Some ((0xFFFFFFFF - 2) mod 2 ^ 32)
  ∧ (ALU.calc 0xFFFFFFFF 2 ALU.ADD ≫= λ s, ALU.calc s 2 ALU.SUB)
    = Some 0xFFFFFFFF
  ∧ (ALU.calc 0xFFFFFFFF 2 ALU.SUB ≫= λ s, ALU.calc s 2 ALU.ADD)
    = Some 0xFFFFFFFF.
Proof.
  assert (bitset.wf 32 0xFFFFFFFF) as Hl by (unfold bitset.wf; simpl; lia).
  split; [exact Hl|]. exact (ALU_calc_ADD_SUB_inverse 0xFFFFFFFF 2 Hl).
Defined.

(** X21. The logical shifts: SLL multiplies by [2^rhs] modulo 2^32, SRL divides
    by [2^rhs] rounding down, and a shift count of 32 or more leaves 0
    (unlike SRA, these have a defined result for every count). *)
Theorem ALU_calc_logical_shifts (lhs rhs : Z) :
  bitset.wf 32 lhs → 0 <= rhs →
  ALU.calc lhs rhs ALU.SLL = Some ((lhs * 2 ^ rhs) mod 2 ^ 32)
  ∧ ALU.calc lhs rhs ALU.SRL = Some (lhs / 2 ^ rhs)
  ∧ (32 <= rhs →
     ALU.calc lhs rhs ALU.SLL = Some 0 ∧ ALU.calc lhs rhs ALU.SRL = Some 0).
Proof.
  intros Hl Hr. apply (proj1 (wf32_bounds _)) in Hl.
  unfold ALU.calc, bitset.shl, bitset.shr, bitset.to_ulong.
  change (2 ^ Z.of_nat 32) with (2 ^ 32).
  rewrite Z.shiftl_mul_pow2, Z.shiftr_div_pow2 by done.
  split; [done|]. split; [done|].
  intros H32. split; f_equal.
  - replace rhs with ((rhs - 32) + 32) by lia.
    rewrite Z.pow_add_r by lia. rewrite Z.mul_assoc. apply Z.mod_mul. lia.
  - apply Z.div_small. split; [lia|].
    apply Z.lt_le_trans with (2 ^ 32); [lia|].
    apply Z.pow_le_mono_r; lia.
Qed.

Lemma ALU_calc_logical_shifts_witness :
  bitset.wf 32 0x80000001 ∧ 0 <= 33
  ∧ ALU.calc 0x80000001 33 ALU.SLL = Some ((0x80000001 * 2 ^ 33) mod 2 ^ 32)
  ∧ ALU.calc 0x80000001 33 ALU.SRL = Some (0x80000001 / 2 ^ 33)
  ∧ (32 <= 33 →
     ALU.calc 0x80000001 33 ALU.SLL = Some 0
     ∧ ALU.calc 0x80000001 33 ALU.SRL = Some 0).
Proof.
  assert (bitset.wf 32 0x80000001) as Hl by (unfold bitset.wf; simpl; lia).
  split; [exact Hl|]. split; [lia|].
  apply (ALU_calc_logical_shifts 0x80000001 33); [exact Hl | lia].
Defined.

(** X22. On an operand whose sign bit is clear the arithmetic and the logical
    right shift coincide. *)
Theorem ALU_calc_SRA_is_SRL_when_nonnegative (lhs rhs : Z) :
  0 <= lhs < 2 ^ 31 → 0 <= rhs < 32 →
  ALU.calc lhs rhs ALU.SRA = ALU.calc lhs rhs ALU.SRL.
Proof.
  intros Hl Hr. unfold ALU.calc, bitset.shr, bitset.to_ulong.
  rewrite decide_True by lia. f_equal.
  assert (to_int32 lhs = lhs) as -> by (revert Hl; ints_arith).
  rewrite Z.shiftr_div_pow2 by lia.
  assert (0 < 2 ^ rhs) by (apply Z.pow_pos_nonneg; lia).
  assert (0 <= lhs / 2 ^ rhs <= lhs).
  { split; [apply Z.div_pos; lia|]. apply Z.div_le_upper_bound; nia. }
  unfold bitset.of_ull, to_uint64. change (2 ^ Z.of_nat 32) with (2 ^ 32).
  set (q := lhs / 2 ^ rhs) in *. clearbody q.
  revert Hl. eval_consts. intros Hl.
  rewrite (Z.mod_small q 18446744073709551616) by lia.
  rewrite Z.mod_small by lia. reflexivity.
Qed.

Lemma ALU_calc_SRA_is_SRL_when_nonnegative_witness :
  0 <= 0x7FFFFFF0 < 2 ^ 31 ∧ 0 <= 4 < 32
  ∧ ALU.calc 0x7FFFFFF0 4 ALU.SRA = ALU.calc 0x7FFFFFF0 4 ALU.SRL.
Proof.
  split; [lia|]. split; [lia|].
  apply (ALU_calc_SRA_is_SRL_when_nonnegative 0x7FFFFFF0 4); lia.
Defined.

Lemma sign_bit_iff (v : Z) :
  bitset.wf 32 v → Z.testbit v 31 = true ↔ 2 ^ 31 <= v.
Proof.
  intros Hv. apply (proj1 (wf32_bounds _)) in Hv.
  rewrite Z.testbit_true by lia. revert Hv. eval_consts. intros.
  Z.to_euclidean_division_equations; lia.
Qed.

(** X23. SLT and SLTU return the comparator's LT and LTU as 0 or 1.  The signed
    and the unsigned comparison agree when the operands have the same sign
    bit and are opposite when the sign bits differ. *)
Theorem ALU_calc_SLT_SLTU (lhs rhs : Z) :
  bitset.wf 32 lhs → bitset.wf 32 rhs →
  ALU.calc lhs rhs ALU.SLT = Some (Z.b2z (CMP.calc lhs rhs CMP.LT))
  ∧ ALU.calc lhs rhs ALU.SLTU = Some (Z.b2z (CMP.calc lhs rhs CMP.LTU))
  ∧ CMP.calc lhs rhs CMP.LT
    = xorb (CMP.calc lhs rhs CMP.LTU)
        (xorb (Z.testbit lhs 31) (Z.testbit rhs 31)).
Proof.
  intros Hl Hr.
  pose proof (sign_bit_iff lhs Hl) as Hsl.
  pose proof (sign_bit_iff rhs Hr) as Hsr.
  apply (proj1 (wf32_bounds _)) in Hl. apply (proj1 (wf32_bounds _)) in Hr.
  unfold ALU.calc, CMP.calc, bitset.to_ulong, bitset.of_ull.
  change (2 ^ Z.of_nat 32) with (2 ^ 32).
  assert (∀ x : bool, (if x then 1 else 0) mod 2 ^ 32 = Z.b2z x) as Hb
    by (by intros []).
  rewrite !Hb. split; [done|]. split; [done|].
  unfold to_int32. rewrite !Z.mod_small by done.
  assert (∀ v, (Z.testbit v 31 = true ↔ 2 ^ 31 <= v) →
            Z.testbit v 31 = negb (v <? 2 ^ 31)) as Hsign.
  { intros v Hv. destruct (Z.ltb_spec v (2 ^ 31)); cbn [negb].
    - apply not_true_iff_false. intros ?%Hv. lia.
    - by apply Hv. }
  rewrite (Hsign lhs Hsl), (Hsign rhs Hsr).
  revert Hl Hr. eval_consts. intros Hl Hr.
  repeat match goal with
  | |- context [?a <? ?b] => destruct (Z.ltb_spec a b); cbn [xorb negb]
  end; first [reflexivity | lia].
Qed.

Lemma ALU_calc_SLT_SLTU_witness :
  bitset.wf 32 0xFFFFFFFF ∧ bitset.wf 32 1
  ∧ ALU.calc 0xFFFFFFFF 1 ALU.SLT
    = Some (Z.b2z (CMP.calc 0xFFFFFFFF 1 CMP.LT))
  ∧ ALU.calc 0xFFFFFFFF 1 ALU.SLTU
    = Some (Z.b2z (CMP.calc 0xFFFFFFFF 1 CMP.LTU))
  ∧ CMP.calc 0xFFFFFFFF 1 CMP.LT
    = xorb (CMP.calc 0xFFFFFFFF 1 CMP.LTU)
        (xorb (Z.testbit 0xFFFFFFFF 31) (Z.testbit 1 31)).
Proof.
  assert (bitset.wf 32 0xFFFFFFFF) as Hl by (unfold bitset.wf; simpl; lia).
  assert (bitset.wf 32 1) as Hr by (unfold bitset.wf; simpl; lia).
  split; [exact Hl|]. split; [exact Hr|].
  exact (ALU_calc_SLT_SLTU 0xFFFFFFFF 1 Hl Hr).
Defined.

(** X24. The six branch conditions come in complementary pairs: NE is the
    negation of EQ, GE of LT and GEU of LTU; EQ holds exactly for equal
    operands. *)
Theorem CMP_calc_complements (lhs rhs : Z) :
  CMP.calc lhs rhs CMP.NE = negb (CMP.calc lhs rhs CMP.EQ)
  ∧ CMP.calc lhs rhs CMP.GE = negb (CMP.calc lhs rhs CMP.LT)
  ∧ CMP.calc lhs rhs CMP.GEU = negb (CMP.calc lhs rhs CMP.LTU)
  ∧ (CMP.calc lhs rhs CMP.EQ = true ↔ lhs = rhs).
Proof.
  unfold CMP.calc. split; [|split; [|split]].
  - by rewrite bool_decide_not.
  - by rewrite Z.leb_antisym.
  - by rewrite Z.leb_antisym.
  - apply bool_decide_eq_true.
Qed.

(** ** Data memory: widths, framing and order *)

Ltac dmem_arith :=
  rewrite ?DMEM_Store_spec; cbn [mbind option_bind];
  rewrite ?DMEM_Load_spec; cbn [fmap option_fmap option_map fst];
  unfold DMEM.peek; cbn [DMEM.dmem_];
  rewrite ?lookup_insert_eq; cbn [from_option id];
  unfold loaded_word, stored_cell, sign_extend, to_uint32, to_int32, bits.

(** X25. Sub-word round trips: a byte (half-word) store followed by a load of
    the same size from the same address returns the low 8 (16) bits of the
    stored word, zero-extended by the unsigned load and sign-extended by
    the signed one. *)
Theorem DMEM_store_load_subword (d : DMEM.t) (A WD : Z) :
  (DMEM.Store d WD A DMEM.BYTE ≫= λ d1, fst <$> DMEM.Load d1 A DMEM.BYTE_U)
    = Some (WD mod 2 ^ 8)
  ∧ (DMEM.Store d WD A DMEM.BYTE ≫= λ d1, fst <$> DMEM.Load d1 A DMEM.BYTE)
    = Some (sign_extend 8 (WD mod 2 ^ 8))
  ∧ (DMEM.Store d WD A DMEM.HALF ≫= λ d1, fst <$> DMEM.Load d1 A DMEM.HALF_U)
    = Some (WD mod 2 ^ 16)
  ∧ (DMEM.Store d WD A DMEM.HALF ≫= λ d1, fst <$> DMEM.Load d1 A DMEM.HALF)
    = Some (sign_extend 16 (WD mod 2 ^ 16)).
Proof.
  repeat split; dmem_arith; f_equal; eval_consts; bits_arith.
Qed.

(** X26. A narrow store replaces the whole cell: after a byte (half-word) store
    the word load from that address returns just the zero-extended byte
    (half-word), whatever word the cell held before. *)
Theorem DMEM_narrow_store_replaces_cell (d : DMEM.t) (A W WD : Z) :
  (DMEM.Store d W A DMEM.WORD ≫= λ d1,
   DMEM.Store d1 WD A DMEM.BYTE ≫= λ d2, fst <$> DMEM.Load d2 A DMEM.WORD)
    = Some (WD mod 2 ^ 8)
  ∧ (DMEM.Store d W A DMEM.WORD ≫= λ d1,
     DMEM.Store d1 WD A DMEM.HALF_U ≫= λ d2, fst <$> DMEM.Load d2 A DMEM.WORD)
    = Some (WD mod 2 ^ 16).
Proof.
  split; dmem_arith; rewrite ?DMEM_Store_spec; cbn [mbind option_bind];
    dmem_arith; f_equal; eval_consts; bits_arith.
Qed.

(** X27. Framing: a store, of any width, changes the result of no load from a
    different address. *)
Theorem DMEM_Store_frame (d : DMEM.t) (A A' WD : Z) (w w' : DMEM.Width) :
  to_uint32 A' ≠ to_uint32 A →
  (DMEM.Store d WD A w ≫= λ d1, fst <$> DMEM.Load d1 A' w')
  = fst <$> DMEM.Load d A' w'.
Proof.
  intros Hne.
  destruct (DMEM.Store d WD A w) as [d1|] eqn:HS;
    [|by rewrite DMEM_Store_spec in HS].
  cbn [mbind option_bind]. rewrite !DMEM_Load_spec.
  cbn [fmap option_fmap option_map fst].
  rewrite (peek_Store _ _ _ _ _ _ HS). by rewrite decide_False.
Qed.

Lemma DMEM_Store_frame_witness :
  to_uint32 12 ≠ to_uint32 8
  ∧ (DMEM.Store DMEM.default 0xCAFE 8 DMEM.HALF
       ≫= λ d1, fst <$> DMEM.Load d1 12 DMEM.WORD)
    = fst <$> DMEM.Load DMEM.default 12 DMEM.WORD.
Proof.
  assert (to_uint32 12 ≠ to_uint32 8) as Hne by (vm_compute; discriminate).
  split; [exact Hne|].
  exact (DMEM_Store_frame DMEM.default 8 12 0xCAFE DMEM.HALF DMEM.WORD Hne).
Defined.

(** X28. Two stores to different addresses may be swapped, and of two stores to
    the same address only the second one counts: the resulting memories
    are equal. *)
Theorem DMEM_Store_order (d : DMEM.t) (A B V W : Z) (w w' : DMEM.Width) :
  (to_uint32 A ≠ to_uint32 B →
     (DMEM.Store d V A w ≫= λ d1, DMEM.Store d1 W B w')
     = (DMEM.Store d W B w' ≫= λ d1, DMEM.Store d1 V A w))
  ∧ (DMEM.Store d V A w ≫= λ d1, DMEM.Store d1 W A w')
    = DMEM.Store d W A w'.
Proof.
  rewrite !DMEM_Store_spec. cbn [mbind option_bind].
  rewrite !DMEM_Store_spec. cbn [DMEM.dmem_]. split.
  - intros Hne. do 2 f_equal. by apply insert_insert_ne.
  - do 2 f_equal. apply insert_insert_eq.
Qed.

Lemma stored_cell_wf (w : DMEM.Width) (WD : Z) :
  bitset.wf 32 WD → bitset.wf 32 (stored_cell w WD).
Proof.
  intros HWD. apply wf32_bounds. apply (proj1 (wf32_bounds _)) in HWD.
  revert HWD. destruct w; unfold stored_cell, bits; eval_consts; bits_arith.
Qed.

Lemma loaded_word_wf (w : DMEM.Width) (cell : Z) :
  bitset.wf 32 cell → bitset.wf 32 (loaded_word w cell).
Proof.
  intros Hc. apply wf32_bounds. apply (proj1 (wf32_bounds _)) in Hc.
  revert Hc.
  destruct w; unfold loaded_word, sign_extend, to_uint32, bits;
    eval_consts; bits_arith.
Qed.

Lemma run_cells_wf (ops : list DMEM.op) (d : DMEM.t) :
  (∀ idx, bitset.wf 32 (DMEM.peek d idx)) →
  Forall stores_word ops →
  ∃ vals d', DMEM.run d ops = Some (vals, d')
    ∧ Forall (bitset.wf 32) vals
    ∧ ∀ idx, bitset.wf 32 (DMEM.peek d' idx).
Proof.
  revert d. induction ops as [|[WD A w|A w] ops IH]; intros d Hd Hops.
  - exists [], d. split; [done|]. split; [constructor | done].
  - apply Forall_cons in Hops as [Ho Hops]. cbn [stores_word] in Ho.
    destruct (DMEM.Store d WD A w) as [d1|] eqn:HS;
      [|by rewrite DMEM_Store_spec in HS].
    destruct (IH d1) as (vals & d' & Hrun & Hvals & Hd'); [|done|].
    + intros idx. rewrite (peek_Store _ _ _ _ _ _ HS).
      case_decide; [by apply stored_cell_wf | apply Hd].
    + exists vals, d'. cbn [DMEM.run]. rewrite HS. by cbn.
  - apply Forall_cons in Hops as [_ Hops].
    destruct (DMEM.Load d A w) as [[v d1]|] eqn:HL;
      [|by rewrite DMEM_Load_spec in HL].
    destruct (IH d1) as (vals & d' & Hrun & Hvals & Hd'); [|done|].
    + intros idx. rewrite (peek_Load _ _ _ _ _ _ HL). apply Hd.
    + exists (v :: vals), d'. cbn [DMEM.run]. rewrite HL. cbn.
      rewrite Hrun. cbn. split; [done|]. split; [|done].
      apply Forall_cons. split; [|done].
      rewrite DMEM_Load_spec in HL. injection HL as <- _.
      apply loaded_word_wf, Hd.
Qed.

(** X29. As long as only 32-bit words are stored, any run of stores and loads
    from the empty memory completes without exception, and every word it
    loads fits in 32 bits. *)
Theorem DMEM_run_loads_wf (ops : list DMEM.op) :
  Forall stores_word ops →
  ∃ vals d, DMEM.run DMEM.default ops = Some (vals, d)
    ∧ Forall (bitset.wf 32) vals.
Proof.
  intros Hops.
  destruct (run_cells_wf ops DMEM.default) as (vals & d & Hrun & Hvals & _);
    [|done|by exists vals, d].
  intros idx. unfold DMEM.peek, DMEM.default. cbn [DMEM.dmem_].
  rewrite lookup_empty. cbn. apply wf32_bounds. lia.
Qed.

Lemma DMEM_run_loads_wf_witness :
  let ops := [DMEM.OpStore 0xFFFFFF80 4 DMEM.BYTE; DMEM.OpLoad 4 DMEM.BYTE;
              DMEM.OpLoad 4 DMEM.HALF; DMEM.OpLoad 8 DMEM.WORD] in
  Forall stores_word ops
  ∧ ∃ vals d, DMEM.run DMEM.default ops = Some (vals, d)
      ∧ Forall (bitset.wf 32) vals.
Proof.
  intros ops.
  assert (Forall stores_word ops) as Hops
    by (repeat constructor; unfold bitset.wf; simpl; lia).
  split; [exact Hops|]. exact (DMEM_run_loads_wf ops Hops).
Defined.

(** X30. The range of each load: an unsigned byte load is below [2^8], an
    unsigned half-word load below [2^16], and the signed loads, read as
    two's-complement numbers, lie in the 8-bit and 16-bit signed ranges. *)
Theorem DMEM_Load_ranges (d : DMEM.t) (A : Z) :
  ∃ bu hu b h,
    fst <$> DMEM.Load d A DMEM.BYTE_U = Some bu
    ∧ fst <$> DMEM.Load d A DMEM.HALF_U = Some hu
    ∧ (λ r, to_int32 r.1) <$> DMEM.Load d A DMEM.BYTE = Some b
    ∧ (λ r, to_int32 r.1) <$> DMEM.Load d A DMEM.HALF = Some h
    ∧ 0 <= bu < 2 ^ 8 ∧ 0 <= hu < 2 ^ 16
    ∧ - 2 ^ 7 <= b < 2 ^ 7 ∧ - 2 ^ 15 <= h < 2 ^ 15.
Proof.
  rewrite !DMEM_Load_spec. cbn [fmap option_fmap option_map fst].
  do 4 eexists. do 4 (split; [reflexivity|]).
  unfold loaded_word, sign_extend, to_uint32, to_int32, bits.
  eval_consts. repeat split; bits_arith.
Qed.

(** ** Instances at concrete inputs *)

Lemma concat_defined_iff_widths_witness :
  (concat 32 [(24%nat, 0); (8%nat, 0xFF)] = None
   ↔ total_width [(24%nat, 0); (8%nat, 0xFF)] ≠ 32%nat)
  ∧ ∀ v, concat 32 [(24%nat, 0); (8%nat, 0xFF)] = Some v → bitset.wf 32 v.
Proof. exact (concat_defined_iff_widths 32 [(24%nat, 0); (8%nat, 0xFF)]). Defined.

Lemma PC_add_forms_agree_witness :
  (8 mod 4 = 0 →
     PC.add (PC.of_uint32 3) 8 = Some (PC.add_assign_bitset (PC.of_uint32 3) 8)
     ∧ PC.add_assign (PC.of_uint32 3) 8
       = Some (PC.add_assign_bitset (PC.of_uint32 3) 8))
  ∧ (8 mod 4 ≠ 0 →
     PC.add (PC.of_uint32 3) 8 = None ∧ PC.add_assign (PC.of_uint32 3) 8 = None).
Proof. exact (PC_add_forms_agree (PC.of_uint32 3) 8). Defined.

Lemma DMEM_Store_order_witness :
  (to_uint32 4 ≠ to_uint32 8 →
     (DMEM.Store DMEM.default 1 4 DMEM.WORD
        ≫= λ d1, DMEM.Store d1 2 8 DMEM.BYTE)
     = (DMEM.Store DMEM.default 2 8 DMEM.BYTE
          ≫= λ d1, DMEM.Store d1 1 4 DMEM.WORD))
  ∧ (DMEM.Store DMEM.default 1 4 DMEM.WORD
       ≫= λ d1, DMEM.Store d1 2 4 DMEM.BYTE)
    = DMEM.Store DMEM.default 2 4 DMEM.BYTE.
Proof. exact (DMEM_Store_order DMEM.default 4 8 1 2 DMEM.WORD DMEM.BYTE). Defined.
